(** * ReactChildren: flattening of children trees and key assignment

    A shallow embedding of [packages/react/src/ReactChildren.js]:
    the two key escapers, the pool of traversal contexts, the recursive
    traversal [traverseAllChildrenImpl] and the public operations
    [forEachChildren], [mapChildren], [countChildren], [toArray] and
    [onlyChild].

    JavaScript values are an inductive type; the module's mutable state
    (the context pool, the arrays the operations push into, the
    warn-once flag) is an explicit store threaded by a state and
    exception monad in which a thrown error keeps the store as it was
    at the throw.

    What the model fixes: keys are [null] or strings, as
    [ReactElement.js] makes them; numbers are integers; an iterable is
    the finite list its iterator yields; visitor functions are pure;
    only elements and portals have a [key] property; the string
    conversion of an object either yields a string or throws a
    [TypeError].  The functions
    imported from other files ([isValidElement], [cloneAndReplaceKey],
    [invariant], [warning], [getIteratorFn]) are modelled from their
    description in the specification. *)

From Stdlib Require Import String Ascii ZArith Lia Bool.
From stdpp Require Import base option list strings.

Local Open Scope string_scope.
Local Open Scope list_scope.

Set Warnings "-register-all".

(** ** JavaScript values *)

(** A React element as far as this file looks at it: its [key]
    ([null] or a string, [ReactElement.js] stringifies every key given)
    and everything else (type, ref, props, owner) as one opaque
    payload. *)
Record ReactElement := mkElement {
  key : option string;
  payload : nat
}.

Inductive value :=
| VUndefined
| VNull
| VBoolean (b : bool)
| VString (s : string)
| VNumber (n : Z)
| VElement (e : ReactElement)           (* $$typeof === REACT_ELEMENT_TYPE *)
| VPortal (p : ReactElement)            (* $$typeof === REACT_PORTAL_TYPE *)
| VArray (items : list value)           (* Array.isArray *)
| VIterable (isEntries : bool) (items : list value)
    (* a non-array object with an iterator method; [isEntries] says
       that the method is the object's own [entries] (a Map); [items]
       is what the iterator yields *)
| VObject (str : option string) (keys : list string)
    (* any other object: [str] is its string conversion ['' + obj],
       [None] when the conversion throws (an object with neither
       [toString] nor [valueOf], such as [Object.create(null)]), and
       [keys] is [Object.keys] of it *)
| VFunction (id : nat).                 (* typeof is 'function' or 'symbol' *)

Inductive jstype :=
| TUndefined | TBoolean | TString | TNumber | TObject | TFunction.

Definition typeof (v : value) : jstype :=
  match v with
  | VUndefined => TUndefined
  | VBoolean _ => TBoolean
  | VString _ => TString
  | VNumber _ => TNumber
  | VFunction _ => TFunction
  | VNull | VElement _ | VPortal _ | VArray _ | VIterable _ _
  | VObject _ _ => TObject
  end.

Inductive symbol := REACT_ELEMENT_TYPE | REACT_PORTAL_TYPE.

(** [v.$$typeof] *)
Definition dollar_typeof (v : value) : option symbol :=
  match v with
  | VElement _ => Some REACT_ELEMENT_TYPE
  | VPortal _ => Some REACT_PORTAL_TYPE
  | _ => None
  end.

(** [v.key]: elements and portals carry one; arrays, iterables and
    other objects are modelled without a [key] property, [None] stands
    for both [null] and [undefined]. *)
Definition key_of (v : value) : option string :=
  match v with
  | VElement e | VPortal e => key e
  | _ => None
  end.

(** [children == null] *)
Definition isNullish (v : value) : bool :=
  match v with
  | VUndefined | VNull => true
  | _ => false
  end.

(** [!v] for the values a visitor can receive or return. *)
Definition falsy (v : value) : bool :=
  match v with
  | VUndefined | VNull => true
  | VBoolean b => negb b
  | VString s => match s with EmptyString => true | _ => false end
  | VNumber n => Z.eqb n 0
  | _ => false
  end.

(** Modelled from the spec: [isValidElement] of [ReactElement.js],
    the primitive [isRenderableElement(x) -> bool]: an object whose
    [$$typeof] is the element symbol. *)
Definition isValidElement (v : value) : bool :=
  match v with
  | VElement _ => true
  | _ => false
  end.

(** Modelled from the spec: [cloneAndReplaceKey] of [ReactElement.js],
    the primitive [cloneWithKey(element, newKey) -> element]: the same
    element with its key replaced. *)
Definition cloneAndReplaceKey (oldElement : value) (newKey : string)
  : value :=
  match oldElement with
  | VElement e => VElement {| key := Some newKey; payload := payload e |}
  | other => other
  end.

(** ** Strings *)

(** [s.replace(re, replacer)] for a global regular expression that
    matches single characters: one pass, left to right, the replacement
    is not scanned again. *)
Fixpoint replaceChars (re : ascii -> bool) (replacer : ascii -> string)
  (s : string) : string :=
  match s with
  | EmptyString => EmptyString
  | String c rest =>
      (if re c then replacer c else String c EmptyString)
        +:+ replaceChars re replacer rest
  end.

(** [xs.join(sep)] *)
Fixpoint join (sep : string) (xs : list string) : string :=
  match xs with
  | [] => ""
  | [x] => x
  | x :: rest => x +:+ sep +:+ join sep rest
  end.

Definition digit36 (d : nat) : ascii :=
  if Nat.ltb d 10 then ascii_of_nat (48 + d) else ascii_of_nat (87 + d).

Fixpoint toString36_aux (fuel n : nat) (acc : string) : string :=
  match fuel with
  | 0 => acc
  | S fuel' =>
      let acc' := String (digit36 (n mod 36)) acc in
      if Nat.eqb (n / 36) 0 then acc' else toString36_aux fuel' (n / 36) acc'
  end.

(** [index.toString(36)] for a non-negative integer index. *)
Definition toString36 (index : nat) : string :=
  toString36_aux (S index) index "".

Definition SEPARATOR : string := ".".
Definition SUBSEPARATOR : string := ":".

(** ** Key escaping *)

Definition escapeRegex (c : ascii) : bool :=
  Ascii.eqb c "=" || Ascii.eqb c ":".

Definition escaperLookup (c : ascii) : string :=
  if Ascii.eqb c "=" then "=0"
  else if Ascii.eqb c ":" then "=2"
  else "undefined".

Definition escape (key : string) : string :=
  let escapedString := replaceChars escapeRegex escaperLookup key in
  "$" +:+ escapedString.

(** [('' + text).replace(/\/+/g, '$&/')]: every maximal run of slashes
    gets one more slash. *)
Fixpoint escapeUserProvidedKey (text : string) : string :=
  match text with
  | EmptyString => EmptyString
  | String c rest =>
      if Ascii.eqb c "/" then
        match rest with
        | String "/" _ => String c (escapeUserProvidedKey rest)
        | _ => String c (String "/" (escapeUserProvidedKey rest))
        end
      else String c (escapeUserProvidedKey rest)
  end.

Definition getComponentKey (component : value) (index : nat) : string :=
  match typeof component, isNullish component, key_of component with
  | TObject, false, Some k => escape k
  | _, _, _ => toString36 index
  end.

(** ** The store and the monad *)

(** A visitor function [func.call(context, child, index)], modelled as
    a pure function of its [this], the child and the index. *)
Definition mapfn := value -> value -> nat -> value.

(** A traversal context.  [result] is [null] or a reference to an
    array of the store. *)
Record TraverseContext := mkContext {
  result : option nat;
  keyPrefix : option string;
  func : option mapfn;
  context : value;
  count : nat
}.

Record State := mkState {
  traverseContextPool : list TraverseContext;
  arrays : list (list value);
  didWarnAboutMaps : bool;
  warnings : list string
}.

Inductive error :=
| InvariantViolation (message : string)
| TypeError (message : string).

Inductive outcome (A : Type) :=
| Return (a : A)
| Throw (e : error)
| OutOfFuel.
Arguments Return {A} a.
Arguments Throw {A} e.
Arguments OutOfFuel {A}.

Definition M (A : Type) : Type := State -> outcome A * State.

Definition ret {A} (a : A) : M A := fun s => (Return a, s).
Definition throw {A} (e : error) : M A := fun s => (Throw e, s).
Definition bind {A B} (m : M A) (k : A -> M B) : M B :=
  fun s =>
    match m s with
    | (Return a, s') => k a s'
    | (Throw e, s') => (Throw e, s')
    | (OutOfFuel, s') => (OutOfFuel, s')
    end.

Notation "'let!' x ':=' m 'in' k" := (bind m (fun x => k))
  (at level 10, x pattern, m at level 100, k at level 200).
Notation "m ';;' k" := (bind m (fun _ => k))
  (at level 100, k at level 200, right associativity).

Definition initialState : State :=
  {| traverseContextPool := []; arrays := [];
     didWarnAboutMaps := false; warnings := [] |}.

(** [const result = []] *)
Definition newArray : M nat :=
  fun s =>
    (Return (length (arrays s)),
     {| traverseContextPool := traverseContextPool s;
        arrays := arrays s ++ [[]];
        didWarnAboutMaps := didWarnAboutMaps s;
        warnings := warnings s |}).

(** [array.push(v)]; pushing to [null] is a TypeError. *)
Definition push (array : option nat) (v : value) : M unit :=
  fun s =>
    match array with
    | Some l =>
        match arrays s !! l with
        | Some xs =>
            (Return tt,
             {| traverseContextPool := traverseContextPool s;
                arrays := <[l := xs ++ [v]]> (arrays s);
                didWarnAboutMaps := didWarnAboutMaps s;
                warnings := warnings s |})
        | None => (Throw (TypeError "dangling array"), s)
        end
    | None => (Throw (TypeError "Cannot read property 'push' of null"), s)
    end.

(** The contents of an array when it is handed to the caller. *)
Definition readArray (l : nat) : M (list value) :=
  fun s =>
    match arrays s !! l with
    | Some xs => (Return xs, s)
    | None => (Throw (TypeError "dangling array"), s)
    end.

(** Modelled from the spec: [warning] of [shared/warning], the
    diagnostic side channel: it records the message when the condition
    is false. *)
Definition warning (condition : bool) (message : string) : M unit :=
  fun s =>
    if condition then (Return tt, s)
    else
      (Return tt,
       {| traverseContextPool := traverseContextPool s;
          arrays := arrays s;
          didWarnAboutMaps := didWarnAboutMaps s;
          warnings := warnings s ++ [message] |}).

(** Substitution of the [%s] of a format by the arguments in order. *)
Fixpoint formatMessage (format : string) (args : list string) : string :=
  match format with
  | EmptyString => EmptyString
  | String "%" (String "s" rest) =>
      match args with
      | a :: args' => a +:+ formatMessage rest args'
      | [] => "undefined" +:+ formatMessage rest []
      end
  | String c rest => String c (formatMessage rest args)
  end.

(** The error of ['' + obj] for an object that has no string
    conversion. *)
Definition conversionError : error :=
  TypeError "Cannot convert object to primitive value".

(** ['' + obj] for an object whose string conversion is [str]. *)
Definition toPrimitiveString (str : option string) : M string :=
  match str with
  | Some childrenString => ret childrenString
  | None => throw conversionError
  end.

(** Modelled from the spec: [invariant] of [shared/invariant]: a fatal
    error with the formatted message unless the condition holds. *)
Definition invariant (condition : bool) (format : string)
  (args : list string) : M unit :=
  if condition then ret tt
  else throw (InvariantViolation (formatMessage format args)).

(** ** The pool of traversal contexts *)

Definition POOL_SIZE : nat := 10.

(** [xs.pop()]: the last item and the rest. *)
Definition pop {A} (xs : list A) : option (A * list A) :=
  match rev xs with
  | [] => None
  | x :: r => Some (x, rev r)
  end.

Definition getPooledTraverseContext (mapResult : option nat)
  (keyPrefix : option string) (mapFunction : option mapfn)
  (mapContext : value) : M TraverseContext :=
  fun s =>
    match pop (traverseContextPool s) with
    | Some (_, rest) =>
        (* every field of the popped record is assigned *)
        (Return {| result := mapResult; keyPrefix := keyPrefix;
                   func := mapFunction; context := mapContext; count := 0 |},
         {| traverseContextPool := rest;
            arrays := arrays s;
            didWarnAboutMaps := didWarnAboutMaps s;
            warnings := warnings s |})
    | None =>
        (Return {| result := mapResult; keyPrefix := keyPrefix;
                   func := mapFunction; context := mapContext; count := 0 |},
         s)
    end.

Definition releaseTraverseContext (traverseContext : TraverseContext)
  : M unit :=
  fun s =>
    let traverseContext :=
      {| result := None; keyPrefix := None; func := None;
         context := VNull; count := 0 |} in
    if Nat.ltb (length (traverseContextPool s)) POOL_SIZE then
      (Return tt,
       {| traverseContextPool := traverseContextPool s ++ [traverseContext];
          arrays := arrays s;
          didWarnAboutMaps := didWarnAboutMaps s;
          warnings := warnings s |})
    else (Return tt, s).

Definition run {A} (m : M A) : outcome A := fst (m initialState).

Definition elt (k : option string) (p : nat) : value :=
  VElement {| key := k; payload := p |}.

(** The re-entry depth any call needs: an array returned by the
    visitor is mapped with the identity, which returns no array. *)
Definition enoughFuel : nat := 2.

(** ** Traversal *)

Section ReactChildren.

(** The build flag [__DEV__] and, modelled from the spec as a
    parameter, what [ReactDebugCurrentFrame.getStackAddendum()]
    returns. *)
Variable __DEV__ : bool.
Variable getStackAddendum : string.

Definition mapsWarning : string :=
  "Using Maps as children is unsupported and will likely yield " +:+
  "unexpected results. Convert it to a sequence/iterable of keyed " +:+
  "ReactElements instead.".

(** The [__DEV__] block of the iterator branch. *)
Definition warnAboutMaps (isEntries : bool) : M unit :=
  if __DEV__ then
    if isEntries then
      fun s =>
        match warning (didWarnAboutMaps s) mapsWarning s with
        | (o, s') =>
            (o, {| traverseContextPool := traverseContextPool s';
                   arrays := arrays s';
                   didWarnAboutMaps := true;
                   warnings := warnings s' |})
        end
    else ret tt
  else ret tt.

(** The [type === 'object'] branch that ends the traversal:
    [childrenString = '' + children] is computed before [invariant] is
    called, and throws where the object has no string conversion. *)
Definition invalidChild (str : option string) (keys : list string) : M unit :=
  let addendum :=
    if __DEV__ then
      " If you meant to render a collection of children, use an array " +:+
      "instead." +:+ getStackAddendum
    else "" in
  let! childrenString := toPrimitiveString str in
  invariant false
    "Objects are not valid as a React child (found: %s).%s"
    [ if String.eqb childrenString "[object Object]"
      then "object with keys {" +:+ join ", " keys +:+ "}"
      else childrenString;
      addendum ].

Section Traverse.

Context {C : Type}.
Variable callback : C -> value -> string -> M C.

(** [traverseAllChildrenImpl].  The context object [traverseContext]
    is mutated by the callback: it is threaded through and returned
    with the count.  The array and iterator tests look at the argument
    itself: on that path [children] has not been replaced by [null]. *)
Fixpoint traverseAllChildrenImpl (children : value) (nameSoFar : string)
  (traverseContext : C) {struct children} : M (nat * C) :=
  let type := typeof children in
  let children' :=
    match type with
    | TUndefined | TBoolean => VNull
    | _ => children
    end in
  let invokeCallback :=
    match children' with
    | VNull => true
    | _ =>
        match type with
        | TString | TNumber => true
        | TObject =>
            match dollar_typeof children' with
            | Some REACT_ELEMENT_TYPE | Some REACT_PORTAL_TYPE => true
            | None => false
            end
        | _ => false
        end
    end in
  if invokeCallback then
    let! traverseContext := callback traverseContext children'
      (if String.eqb nameSoFar "" then
         SEPARATOR +:+ getComponentKey children' 0
       else nameSoFar) in
    ret (1, traverseContext)
  else
    let nextNamePrefix :=
      if String.eqb nameSoFar "" then SEPARATOR
      else nameSoFar +:+ SUBSEPARATOR in
    let loop :=
      fix loop (items : list value) (i : nat) (subtreeCount : nat)
        (traverseContext : C) {struct items} : M (nat * C) :=
        match items with
        | [] => ret (subtreeCount, traverseContext)
        | child :: rest =>
            let nextName := nextNamePrefix +:+ getComponentKey child i in
            let! (n, traverseContext) :=
              traverseAllChildrenImpl child nextName traverseContext in
            loop rest (S i) (subtreeCount + n) traverseContext
        end in
    match children with
    | VArray items => loop items 0 0 traverseContext
    | VIterable isEntries items =>
        warnAboutMaps isEntries ;;
        loop items 0 0 traverseContext
    | VObject str keys =>
        invalidChild str keys ;;
        ret (0, traverseContext)
    | _ => ret (0, traverseContext)
    end.

Definition traverseAllChildren (children : value) (traverseContext : C)
  : M (nat * C) :=
  if isNullish children then ret (0, traverseContext)
  else traverseAllChildrenImpl children "" traverseContext.

End Traverse.

(** ** The operations *)

Definition forEachSingleChild (bookKeeping : TraverseContext)
  (child : value) (name : string) : M TraverseContext :=
  match func bookKeeping with
  | Some func =>
      let _ := func (context bookKeeping) child (count bookKeeping) in
      ret {| result := result bookKeeping;
             keyPrefix := keyPrefix bookKeeping;
             func := Some func;
             context := context bookKeeping;
             count := S (count bookKeeping) |}
  | None => throw (TypeError "func is null")
  end.

Definition forEachChildren (children : value) (forEachFunc : mapfn)
  (forEachContext : value) : M value :=
  if isNullish children then ret children
  else
    let! traverseContext :=
      getPooledTraverseContext None None (Some forEachFunc) forEachContext in
    let! (_, traverseContext) :=
      traverseAllChildren forEachSingleChild children traverseContext in
    releaseTraverseContext traverseContext ;;
    ret VUndefined.

(** [null + s] is ["null" + s]. *)
Definition stringOfNullable (s : option string) : string :=
  match s with
  | Some s => s
  | None => "null"
  end.

(** [k] as a condition: [null], [undefined] and the empty string are
    false. *)
Definition truthyKey (k : option string) : bool :=
  match k with
  | Some (String _ _) => true
  | _ => false
  end.

(** [a !== b] on keys, read where the right side is a string. *)
Definition keyDiffers (a b : option string) : bool :=
  match a, b with
  | Some x, Some y => negb (String.eqb x y)
  | None, None => false
  | _, _ => true
  end.

(** [mapSingleChildIntoContext]; the function it re-enters for an
    array is an argument, [mapIntoWithKeyPrefixInternal] below ties the
    knot. *)
Definition mapSingleChildIntoContext
  (mapIntoWithKeyPrefixInternal :
     value -> option nat -> option string -> mapfn -> value -> M unit)
  (bookKeeping : TraverseContext) (child : value) (childKey : string)
  : M TraverseContext :=
  let result := result bookKeeping in
  let keyPrefix := keyPrefix bookKeeping in
  let context := context bookKeeping in
  match func bookKeeping with
  | None => throw (TypeError "func is null")
  | Some func =>
      let mappedChild := func context child (count bookKeeping) in
      let bookKeeping :=
        {| result := result; keyPrefix := keyPrefix; func := Some func;
           context := context; count := S (count bookKeeping) |} in
      match mappedChild with
      | VArray _ =>
          mapIntoWithKeyPrefixInternal mappedChild result (Some childKey)
            (fun _ c _ => c) VUndefined ;;
          ret bookKeeping
      | _ =>
          if negb (isNullish mappedChild) then
            let mappedChild :=
              if isValidElement mappedChild then
                cloneAndReplaceKey mappedChild
                  (stringOfNullable keyPrefix +:+
                   (if truthyKey (key_of mappedChild)
                       && (falsy child
                           || keyDiffers (key_of child) (key_of mappedChild))
                    then
                      escapeUserProvidedKey
                        (default "" (key_of mappedChild)) +:+ "/"
                    else "") +:+
                   childKey)
              else mappedChild in
            push result mappedChild ;;
            ret bookKeeping
          else ret bookKeeping
      end
  end.

(** [mapIntoWithKeyPrefixInternal].  It and the callback call each
    other; [fuel] bounds the depth of that re-entry. *)
Fixpoint mapIntoWithKeyPrefixInternal (fuel : nat) (children : value)
  (array : option nat) (prefix : option string) (func : mapfn)
  (context : value) {struct fuel} : M unit :=
  match fuel with
  | 0 => fun s => (OutOfFuel, s)
  | S fuel' =>
      let escapedPrefix :=
        match prefix with
        | Some prefix => escapeUserProvidedKey prefix +:+ "/"
        | None => ""
        end in
      let! traverseContext :=
        getPooledTraverseContext array (Some escapedPrefix) (Some func)
          context in
      let! (_, traverseContext) :=
        traverseAllChildren
          (mapSingleChildIntoContext (mapIntoWithKeyPrefixInternal fuel'))
          children traverseContext in
      releaseTraverseContext traverseContext
  end.

Definition mapChildren (fuel : nat) (children : value) (func : mapfn)
  (context : value) : M value :=
  if isNullish children then ret children
  else
    let! result := newArray in
    mapIntoWithKeyPrefixInternal fuel children (Some result) None func
      context ;;
    let! items := readArray result in
    ret (VArray items).

Definition countChildren (children : value) : M nat :=
  let! (n, _) :=
    traverseAllChildren (fun (traverseContext : unit) _ _ =>
                           ret traverseContext) children tt in
  ret n.

Definition toArray (fuel : nat) (children : value) : M value :=
  let! result := newArray in
  mapIntoWithKeyPrefixInternal fuel children (Some result) None
    (fun _ child _ => child) VUndefined ;;
  let! items := readArray result in
  ret (VArray items).

Definition onlyChild (children : value) : M value :=
  invariant (isValidElement children)
    "React.Children.only expected to receive a single React element child."
    [] ;;
  ret children.



(** ** The traversal as a sequence of events

    What [traverseAllChildrenImpl] does to a tree, laid out in order:
    the leaves it hands to the callback with their names, the Map
    warnings, and the invalid object at which it stops. *)

Inductive event :=
| Visit (child : value) (name : string)
| Warn (isEntries : bool)
| Invalid (str : option string) (keys : list string).

Definition leafName (child : value) (nameSoFar : string) : string :=
  if String.eqb nameSoFar "" then SEPARATOR +:+ getComponentKey child 0
  else nameSoFar.

Definition nextNamePrefix (nameSoFar : string) : string :=
  if String.eqb nameSoFar "" then SEPARATOR else nameSoFar +:+ SUBSEPARATOR.

Fixpoint events (children : value) (nameSoFar : string) : list event :=
  match children with
  | VUndefined | VNull | VBoolean _ => [Visit VNull (leafName VNull nameSoFar)]
  | VString _ | VNumber _ | VElement _ | VPortal _ =>
      [Visit children (leafName children nameSoFar)]
  | VArray items =>
      (fix go (items : list value) (i : nat) : list event :=
         match items with
         | [] => []
         | child :: rest =>
             events child
               (nextNamePrefix nameSoFar +:+ getComponentKey child i)
             ++ go rest (S i)
         end) items 0
  | VIterable isEntries items =>
      Warn isEntries ::
      (fix go (items : list value) (i : nat) : list event :=
         match items with
         | [] => []
         | child :: rest =>
             events child
               (nextNamePrefix nameSoFar +:+ getComponentKey child i)
             ++ go rest (S i)
         end) items 0
  | VObject str keys => [Invalid str keys]
  | VFunction _ => []
  end.

Fixpoint eventsOfItems (prefix : string) (items : list value) (i : nat)
  : list event :=
  match items with
  | [] => []
  | child :: rest =>
      events child (prefix +:+ getComponentKey child i)
      ++ eventsOfItems prefix rest (S i)
  end.

Fixpoint runEvents {C} (callback : C -> value -> string -> M C)
  (evs : list event) (acc : nat * C) : M (nat * C) :=
  match evs with
  | [] => ret acc
  | Visit child name :: rest =>
      let! traverseContext := callback (snd acc) child name in
      runEvents callback rest (S (fst acc), traverseContext)
  | Warn isEntries :: rest =>
      warnAboutMaps isEntries ;; runEvents callback rest acc
  | Invalid str keys :: rest =>
      invalidChild str keys ;; runEvents callback rest acc
  end.

(** The leaves visited before the traversal stops, and the invalid
    object it stops at. *)
Fixpoint visited (evs : list event) : list (value * string) :=
  match evs with
  | [] => []
  | Visit child name :: rest => (child, name) :: visited rest
  | Warn _ :: rest => visited rest
  | Invalid _ _ :: _ => []
  end.

Fixpoint firstInvalid (evs : list event)
  : option (option string * list string) :=
  match evs with
  | [] => None
  | Visit _ _ :: rest | Warn _ :: rest => firstInvalid rest
  | Invalid str keys :: _ => Some (str, keys)
  end.

(** The leaves: what the callback can be handed. *)
Definition isLeaf (v : value) : bool :=
  match v with
  | VNull | VString _ | VNumber _ | VElement _ | VPortal _ => true
  | _ => false
  end.

Definition isArray (v : value) : bool :=
  match v with
  | VArray _ => true
  | _ => false
  end.

Definition leafEvent (ev : event) : Prop :=
  match ev with
  | Visit child _ => isLeaf child = true
  | _ => True
  end.

(** The message of the invalid-child error. *)
Definition invalidChildMessage (str : string) (keys : list string) : string :=
  "Objects are not valid as a React child (found: " +:+
  (if String.eqb str "[object Object]"
   then "object with keys {" +:+ join ", " keys +:+ "}"
   else str) +:+
  ")." +:+
  (if __DEV__ then
     " If you meant to render a collection of children, use an array " +:+
     "instead." +:+ getStackAddendum
   else "").

(** The error the traversal stops with at an object: the invariant
    violation, or the [TypeError] of a string conversion that throws. *)
Definition invalidChildError (o : option string * list string) : error :=
  match fst o with
  | Some str => InvariantViolation (invalidChildMessage str (snd o))
  | None => conversionError
  end.

(** ** What the map callback appends

    [userKeySegment] and [emitOne] restate the non-array branch of
    [mapSingleChildIntoContext] as values; [emitLeaves] is the output
    of an identity pass over visited leaves, [mapModel] the output of
    a pass with any visitor, with the invalid object a re-entered
    array stops at. *)

Definition userKeySegment (child mappedChild : value) : string :=
  if truthyKey (key_of mappedChild)
     && (falsy child || keyDiffers (key_of child) (key_of mappedChild))
  then escapeUserProvidedKey (default "" (key_of mappedChild)) +:+ "/"
  else "".

Definition emitOne (prefix : option string) (child : value)
  (childKey : string) (mappedChild : value) : list value :=
  if isNullish mappedChild then []
  else if isValidElement mappedChild then
    [cloneAndReplaceKey mappedChild
       (stringOfNullable prefix +:+ userKeySegment child mappedChild
        +:+ childKey)]
  else [mappedChild].

Definition emitLeaves (prefix : option string) (vs : list (value * string))
  : list value :=
  flat_map (fun v => emitOne prefix (fst v) (snd v) (fst v)) vs.

Definition traversed (children : value) : list event :=
  if isNullish children then [] else events children "".

Fixpoint mapModel (prefix : option string) (f : mapfn) (this : value)
  (index : nat) (vs : list (value * string))
  : list value * option (option string * list string) :=
  match vs with
  | [] => ([], None)
  | (child, childKey) :: rest =>
      let mappedChild := f this child index in
      if isArray mappedChild then
        let evs := traversed mappedChild in
        let out :=
          emitLeaves (Some (escapeUserProvidedKey childKey +:+ "/"))
            (visited evs) in
        match firstInvalid evs with
        | Some o => (out, Some o)
        | None =>
            let (out', o) := mapModel prefix f this (S index) rest in
            (out ++ out', o)
        end
      else
        let (out', o) := mapModel prefix f this (S index) rest in
        (emitOne prefix child childKey mappedChild ++ out', o)
  end.

(** The outcome of a traversal whose callback appends [model]. *)
Definition traversalOutcome {A} (inner : option (option string * list string))
  (evs : list event) (a : A) : outcome A :=
  match inner with
  | Some o => Throw (invalidChildError o)
  | None =>
      match firstInvalid evs with
      | Some o => Throw (invalidChildError o)
      | None => Return a
      end
  end.

(** The context a map pass holds after [index] leaves. *)
Definition contextAt (l : nat) (p : option string) (f : mapfn) (this : value)
  (index : nat) : TraverseContext :=
  {| result := Some l; keyPrefix := p; func := Some f; context := this;
     count := index |}.

(** [escapedPrefix] of [mapIntoWithKeyPrefixInternal]. *)
Definition escapedPrefixOf (prefix : option string) : string :=
  match prefix with
  | Some prefix => escapeUserProvidedKey prefix +:+ "/"
  | None => ""
  end.

(** The output of a pass with [x => [x]] over visited leaves. *)
Definition wrappedLeaves (vs : list (value * string)) : list value :=
  flat_map
    (fun v =>
       emitOne (Some (escapeUserProvidedKey (snd v) +:+ "/")) (fst v)
         (SEPARATOR +:+ getComponentKey (fst v) 0) (fst v)) vs.

(** ** The pool invariant *)

Definition cleared (c : TraverseContext) : Prop :=
  result c = None /\ keyPrefix c = None /\ func c = None
  /\ context c = VNull /\ count c = 0.

Definition pool_ok (s : State) : Prop :=
  length (traverseContextPool s) <= POOL_SIZE
  /\ Forall cleared (traverseContextPool s).

(** ** Notions the statements use *)

(** The leaves of a tree that the traversal turns into [null]:
    [null], [undefined] and booleans. *)
Fixpoint emptyLeaves (v : value) : nat :=
  match v with
  | VUndefined | VNull | VBoolean _ => 1
  | VArray items | VIterable _ items => list_sum (map emptyLeaves items)
  | _ => 0
  end.

Fixpoint nullVisits (evs : list event) : nat :=
  match evs with
  | [] => 0
  | Visit VNull _ :: rest => S (nullVisits rest)
  | _ :: rest => nullVisits rest
  end.

(** The first object in a tree, in depth-first order, that is neither
    a leaf nor an array nor an iterable. *)
Fixpoint firstObject (v : value) : option (option string * list string) :=
  match v with
  | VObject str keys => Some (str, keys)
  | VArray items | VIterable _ items =>
      (fix go (items : list value) : option (option string * list string) :=
         match items with
         | [] => None
         | x :: rest =>
             match firstObject x with
             | Some o => Some o
             | None => go rest
             end
         end) items
  | _ => None
  end.

(** A value a single-leaf tree can be. *)
Definition leafNode (v : value) : bool :=
  match v with
  | VUndefined | VNull | VBoolean _ | VString _ | VNumber _
  | VElement _ | VPortal _ => true
  | _ => false
  end.

(** An output with the key of an element forgotten. *)
Definition eraseKey (v : value) : value :=
  match v with
  | VElement e => VElement {| key := None; payload := payload e |}
  | other => other
  end.

Definition eraseKeys (o : outcome value) : outcome value :=
  match o with
  | Return (VArray items) => Return (VArray (map eraseKey items))
  | other => other
  end.

(** [hay.includes(needle)] *)
Definition includes (needle hay : string) : Prop :=
  exists before after, hay = before +:+ needle +:+ after.

(** Following the spec's words: every [=] becomes [=0] and every [:]
    becomes [=2], character by character, and [$] goes in front. *)
Definition substituteChar (c : ascii) : list ascii :=
  if Ascii.eqb c "=" then ["="; "0"]%char
  else if Ascii.eqb c ":" then ["="; "2"]%char
  else [c].

Definition escapeExplicitKey (key : string) : string :=
  string_of_list_ascii
    ("$"%char :: flat_map substituteChar (list_ascii_of_string key)).

Definition onlyChildMessage : string :=
  "React.Children.only expected to receive a single React element child.".

(** ** Further notions *)

(** The inverse of [escapeUserProvidedKey]: the last slash of every
    run of slashes goes. *)
Fixpoint unescapeUserProvidedKey (text : string) : string :=
  match text with
  | EmptyString => EmptyString
  | String c rest =>
      if Ascii.eqb c "/" then
        match rest with
        | String "/" _ => String c (unescapeUserProvidedKey rest)
        | _ => unescapeUserProvidedKey rest
        end
      else String c (unescapeUserProvidedKey rest)
  end.

Definition startsWithSlash (s : string) : bool :=
  match s with
  | String c _ => Ascii.eqb c "/"
  | EmptyString => false
  end.

(** The value of a base-36 digit and of a base-36 numeral. *)
Definition digitValue36 (c : ascii) : nat :=
  let k := nat_of_ascii c in
  if Nat.ltb k 58 then k - 48 else k - 87.

Fixpoint parse36_aux (s : string) (acc : nat) : nat :=
  match s with
  | EmptyString => acc
  | String c rest => parse36_aux rest (acc * 36 + digitValue36 c)
  end.

Definition parse36 (s : string) : nat := parse36_aux s 0.

(** Whether a value carries an explicit key, as [getComponentKey]
    tests it. *)
Definition explicitKey (component : value) : option string :=
  match typeof component, isNullish component, key_of component with
  | TObject, false, Some k => Some k
  | _, _, _ => None
  end.

(** The leaves of a tree as the traversal counts them: every leaf,
    the ones it turns into [null] included; a function or a symbol is
    none. *)
Fixpoint countLeaves (v : value) : nat :=
  match v with
  | VUndefined | VNull | VBoolean _ | VString _ | VNumber _
  | VElement _ | VPortal _ => 1
  | VArray items | VIterable _ items => list_sum (map countLeaves items)
  | _ => 0
  end.

(** The leaves of a tree that are not [null], [undefined] or a
    boolean, depth first, left to right. *)
Fixpoint solidLeaves (v : value) : list value :=
  match v with
  | VString _ | VNumber _ | VElement _ | VPortal _ => [v]
  | VArray items | VIterable _ items => flat_map solidLeaves items
  | _ => []
  end.

Definition solidLeaf (v : value) : bool :=
  match v with
  | VString _ | VNumber _ | VElement _ | VPortal _ => true
  | _ => false
  end.


(** The visitor [x => [x, x]]. *)
Definition twiceVisitor : mapfn := fun _ x _ => VArray [x; x].



(** How one operation may change the record of warnings: nothing
    changes, or, in a development build that has not warned yet, the
    Maps warning is added once and the flag is set. *)
Definition warnsAtMostOnce (s s' : State) : Prop :=
  (warnings s' = warnings s /\ didWarnAboutMaps s' = didWarnAboutMaps s)
  \/ (__DEV__ = true /\ didWarnAboutMaps s = false
      /\ warnings s' = warnings s ++ [mapsWarning]
      /\ didWarnAboutMaps s' = true).

(** The arrays below [n] are the same in both stores. *)
Definition sameArraysBelow (n : nat) (s s' : State) : Prop :=
  forall l, l < n -> arrays s' !! l = arrays s !! l.

(** The arrays are as many as before and the ones below [n] are the
    same. *)
Definition keepsArrays (n : nat) (s s' : State) : Prop :=
  length (arrays s') = length (arrays s) /\ sameArraysBelow n s s'.


(** The names handed to the callback, in order. *)
Fixpoint names (evs : list event) : list string :=
  match evs with
  | [] => []
  | Visit _ name :: rest => name :: names rest
  | _ :: rest => names rest
  end.

(** The key segments of the items of an array, from index [i]. *)
Fixpoint segments (items : list value) (i : nat) : list string :=
  match items with
  | [] => []
  | child :: rest => getComponentKey child i :: segments rest (S i)
  end.

(** The explicit keys among the items of an array. *)
Definition keysOf (items : list value) : list string :=
  flat_map (fun c => match explicitKey c with
                     | Some k => [k]
                     | None => []
                     end) items.

(** No two items of one array or iterable carry the same explicit
    key, at every level of the tree. *)
Fixpoint uniqueKeys (v : value) : Prop :=
  match v with
  | VArray items | VIterable _ items =>
      NoDup (keysOf items)
      /\ (fix all (items : list value) : Prop :=
            match items with
            | [] => True
            | x :: rest => uniqueKeys x /\ all rest
            end) items
  | _ => True
  end.

(** The keys of the elements among the items of a result. *)
Definition elementKeys (items : list value) : list string :=
  flat_map (fun v => match v with
                     | VElement e =>
                         match key e with
                         | Some k => [k]
                         | None => []
                         end
                     | _ => []
                     end) items.

Definition noColon (s : string) : Prop :=
  ~ In ":"%char (list_ascii_of_string s).

(** A continuation of a name: nothing, or a further level. *)
Definition levelTail (r : string) : Prop :=
  r = "" \/ exists r', r = String ":" r'.

(** The callback that writes down what it is handed. *)
Definition record (log : list (value * string)) (child : value)
  (name : string) : M (list (value * string)) :=
  ret (log ++ [(child, name)]).

(** ** Work tags ([shared/ReactWorkTags.js]) *)

Definition FunctionComponent : nat := 0.
Definition ClassComponent : nat := 1.
Definition IndeterminateComponent : nat := 2.
Definition HostRoot : nat := 3.
Definition HostPortal : nat := 4.
Definition HostComponent : nat := 5.
Definition HostText : nat := 6.
Definition Fragment : nat := 7.
Definition Mode : nat := 8.
Definition ContextConsumer : nat := 9.
Definition ContextProvider : nat := 10.
Definition ForwardRef : nat := 11.
Definition Profiler : nat := 12.
Definition SuspenseComponent : nat := 13.
Definition MemoComponent : nat := 14.
Definition SimpleMemoComponent : nat := 15.
Definition LazyComponent : nat := 16.
Definition IncompleteClassComponent : nat := 17.
Definition DehydratedSuspenseComponent : nat := 18.
Definition EventComponent : nat := 19.
Definition EventTarget : nat := 20.

(** The type [WorkTag]: the literals 0 to 20. *)
Definition isWorkTag (n : nat) : bool := Nat.leb n 20.

Definition workTags : list nat :=
  [FunctionComponent; ClassComponent; IndeterminateComponent; HostRoot;
   HostPortal; HostComponent; HostText; Fragment; Mode; ContextConsumer;
   ContextProvider; ForwardRef; Profiler; SuspenseComponent; MemoComponent;
   SimpleMemoComponent; LazyComponent; IncompleteClassComponent;
   DehydratedSuspenseComponent; EventComponent; EventTarget].

(** A tree with what the traversal cannot tell apart made the same:
    [undefined] and booleans become [null], iterables become the array
    of what they yield. *)
Fixpoint canonical (v : value) : value :=
  match v with
  | VUndefined | VBoolean _ => VNull
  | VArray items | VIterable _ items => VArray (map canonical items)
  | _ => v
  end.

Definition isBoolean (v : value) : bool :=
  match v with
  | VBoolean _ => true
  | _ => false
  end.

(** A tree with every kind of node but an invalid object. *)
Definition sampleTree : value :=
  VArray [elt None 1; VNull;
          VArray [VString "a"; VBoolean true; elt (Some "k") 2];
          VIterable false [elt (Some "k") 3; VNumber 7];
          VFunction 0].

(** ** Lemmas *)

Lemma value_ind' (P : value -> Prop) :
  P VUndefined -> P VNull -> (forall b, P (VBoolean b)) ->
  (forall s, P (VString s)) -> (forall n, P (VNumber n)) ->
  (forall e, P (VElement e)) -> (forall e, P (VPortal e)) ->
  (forall items, Forall P items -> P (VArray items)) ->
  (forall isEntries items, Forall P items -> P (VIterable isEntries items)) ->
  (forall str keys, P (VObject str keys)) ->
  (forall id, P (VFunction id)) ->
  forall v, P v.
Proof.
  intros Hu Hn Hb Hs Hnum He Hp Ha Hi Ho Hf.
  fix IH 1.
  intros [ | | b | s | n | e | e | items | isEntries items | str keys | id ].
  - exact Hu.
  - exact Hn.
  - apply Hb.
  - apply Hs.
  - apply Hnum.
  - apply He.
  - apply Hp.
  - apply Ha. induction items as [|x xs IHxs]; constructor;
      [apply IH | exact IHxs].
  - apply Hi. induction items as [|x xs IHxs]; constructor;
      [apply IH | exact IHxs].
  - apply Ho.
  - apply Hf.
Qed.

Lemma events_array items nameSoFar :
  events (VArray items) nameSoFar
  = eventsOfItems (nextNamePrefix nameSoFar) items 0.
Proof.
  simpl. generalize 0.
  induction items as [|x xs IH]; intros i; simpl; [reflexivity|].
  now rewrite IH.
Qed.

Lemma events_iterable isEntries items nameSoFar :
  events (VIterable isEntries items) nameSoFar
  = Warn isEntries :: eventsOfItems (nextNamePrefix nameSoFar) items 0.
Proof.
  simpl. f_equal. generalize 0.
  induction items as [|x xs IH]; intros i; simpl; [reflexivity|].
  now rewrite IH.
Qed.

(** *** Primitives *)

Lemma append_empty_r (s : string) : s +:+ "" = s.
Proof.
  induction s as [|c s IH]; [reflexivity|].
  change (String c (s +:+ "") = String c s). now f_equal.
Qed.

Lemma append_assoc (a b c : string) : (a +:+ b) +:+ c = a +:+ (b +:+ c).
Proof.
  induction a as [|x a IH]; [reflexivity|].
  change (String x ((a +:+ b) +:+ c) = String x (a +:+ (b +:+ c))).
  now f_equal.
Qed.

Lemma invalidChild_throws (str : option string) (keys : list string)
  (s : State) :
  invalidChild str keys s = (Throw (invalidChildError (str, keys)), s).
Proof.
  destruct str as [str|]; [|reflexivity].
  unfold invalidChild, invalidChildError, invalidChildMessage, invariant,
    toPrimitiveString, bind, throw, ret.
  cbn [fst snd formatMessage].
  rewrite append_empty_r. reflexivity.
Qed.

Lemma warnAboutMaps_returns (isEntries : bool) (s : State) :
  exists s',
    warnAboutMaps isEntries s = (Return tt, s')
    /\ arrays s' = arrays s
    /\ traverseContextPool s' = traverseContextPool s.
Proof.
  unfold warnAboutMaps, warning, ret.
  destruct __DEV__, isEntries; try (eexists; repeat split; reflexivity).
  destruct (didWarnAboutMaps s); eexists; repeat split; reflexivity.
Qed.

Lemma push_lookup (l : nat) (v : value) (out : list value) (s : State) :
  arrays s !! l = Some out ->
  exists s',
    push (Some l) v s = (Return tt, s')
    /\ arrays s' = <[l := out ++ [v]]> (arrays s)
    /\ traverseContextPool s' = traverseContextPool s.
Proof.
  intros H. unfold push. rewrite H.
  eexists; repeat split; reflexivity.
Qed.

(** *** The traversal is its events *)

Section TraverseLemmas.

Context {C : Type}.
Variable callback : C -> value -> string -> M C.

Lemma runEvents_invalid (str : option string) (keys : list string)
  (rest : list event) (acc : nat * C) (s : State) :
  runEvents callback (Invalid str keys :: rest) acc s
  = (Throw (invalidChildError (str, keys)), s).
Proof. cbn [runEvents]. unfold bind. now rewrite invalidChild_throws. Qed.

Lemma runEvents_app (a b : list event) (n m : nat) (ctx : C) (s : State) :
  (let! (n', ctx') := runEvents callback a (m, ctx) in
   runEvents callback b (n + n', ctx')) s
  = runEvents callback (a ++ b) (n + m, ctx) s.
Proof.
  revert m ctx s.
  induction a as [|[child name|isEntries|str keys] a IH]; intros m ctx s.
  - reflexivity.
  - simpl. unfold bind in *. simpl.
    destruct (callback ctx child name s) as [[ctx'| |] s']; try reflexivity.
    rewrite IH. now rewrite Nat.add_succ_r.
  - simpl. unfold bind in *.
    destruct (warnAboutMaps isEntries s) as [[[]| |] s']; try reflexivity.
    apply IH.
  - rewrite <- app_comm_cons, runEvents_invalid. unfold bind.
    now rewrite runEvents_invalid.
Qed.

Lemma loop_events (prefix : string) (items : list value) :
  Forall
    (fun children =>
       forall nameSoFar ctx s,
         traverseAllChildrenImpl callback children nameSoFar ctx s
         = runEvents callback (events children nameSoFar) (0, ctx) s) items ->
  forall i n ctx s,
    (fix loop (items0 : list value) (i subtreeCount : nat)
       (traverseContext : C) {struct items0} : M (nat * C) :=
       match items0 with
       | [] => ret (subtreeCount, traverseContext)
       | child :: rest =>
           let! (n, traverseContext0) :=
             traverseAllChildrenImpl callback child
               (prefix +:+ getComponentKey child i) traverseContext in
           loop rest (S i) (subtreeCount + n) traverseContext0
       end) items i n ctx s
    = runEvents callback (eventsOfItems prefix items i) (n, ctx) s.
Proof.
  induction 1 as [|child rest Hchild _ IH]; intros i n ctx s.
  - reflexivity.
  - cbn [eventsOfItems].
    pose proof (runEvents_app
                  (events child (prefix +:+ getComponentKey child i))
                  (eventsOfItems prefix rest (S i)) n 0 ctx s) as E.
    rewrite Nat.add_0_r in E. rewrite <- E. clear E.
    unfold bind. rewrite Hchild.
    destruct (runEvents callback _ (0, ctx) s) as [[[n' ctx']| |] s'];
      try reflexivity.
    apply IH.
Qed.

Lemma traverse_events (children : value) :
  forall nameSoFar ctx s,
    traverseAllChildrenImpl callback children nameSoFar ctx s
    = runEvents callback (events children nameSoFar) (0, ctx) s.
Proof.
  induction children as
    [ | | b | str | n | e | e | items IH | isEntries items IH | str keys | id ]
    using value_ind'; intros nameSoFar ctx s; try reflexivity.
  - rewrite events_array. simpl.
    apply (loop_events _ _ IH).
  - rewrite events_iterable. simpl. unfold bind.
    destruct (warnAboutMaps isEntries s) as [[[]| |] s']; try reflexivity.
    apply (loop_events _ _ IH).
Qed.

Lemma traverseAllChildren_events (children : value) (ctx : C) (s : State) :
  traverseAllChildren callback children ctx s
  = runEvents callback
      (if isNullish children then [] else events children "") (0, ctx) s.
Proof.
  unfold traverseAllChildren.
  destruct (isNullish children); [reflexivity | apply traverse_events].
Qed.

End TraverseLemmas.

Lemma events_leaf (children : value) :
  forall nameSoFar, Forall leafEvent (events children nameSoFar).
Proof.
  induction children as
    [ | | b | str | n | e | e | items IH | isEntries items IH | str keys | id ]
    using value_ind'; intros nameSoFar;
    try (repeat constructor; fail).
  - rewrite events_array. generalize 0, (nextNamePrefix nameSoFar).
    induction IH as [|x xs Hx _ IHxs]; intros i prefix; simpl.
    + constructor.
    + apply Forall_app. split; [apply Hx | apply IHxs].
  - rewrite events_iterable. constructor; [exact I|].
    generalize 0, (nextNamePrefix nameSoFar).
    induction IH as [|x xs Hx _ IHxs]; intros i prefix; simpl.
    + constructor.
    + apply Forall_app. split; [apply Hx | apply IHxs].
Qed.

Lemma traversed_leaf (children : value) : Forall leafEvent (traversed children).
Proof.
  unfold traversed. destruct (isNullish children);
    [constructor | apply events_leaf].
Qed.

(** *** The map callback *)

Section MapCallback.

Variable mi : value -> option nat -> option string -> mapfn -> value -> M unit.
Variables (l : nat) (p : option string) (f : mapfn) (this : value).

(** What the re-entered function has to do with an array the visitor
    returned. *)
Hypothesis Hmi :
  forall child index items k s out,
    isLeaf child = true ->
    f this child index = VArray items ->
    arrays s !! l = Some out ->
    exists s',
      mi (VArray items) (Some l) (Some k) (fun _ c _ => c) VUndefined s
      = (traversalOutcome None (traversed (VArray items)) tt, s')
      /\ arrays s'
         = <[l := out ++ emitLeaves (Some (escapeUserProvidedKey k +:+ "/"))
                           (visited (traversed (VArray items)))]> (arrays s).

Lemma mapSingle_step (child : value) (k : string) (index : nat) (s : State)
  (out : list value) :
  isLeaf child = true ->
  arrays s !! l = Some out ->
  exists s',
    mapSingleChildIntoContext mi (contextAt l p f this index) child k s
    = ((if isArray (f this child index)
        then traversalOutcome None (traversed (f this child index))
               (contextAt l p f this (S index))
        else Return (contextAt l p f this (S index))), s')
    /\ arrays s'
       = <[l := out ++
                (if isArray (f this child index)
                 then emitLeaves (Some (escapeUserProvidedKey k +:+ "/"))
                        (visited (traversed (f this child index)))
                 else emitOne p child k (f this child index))]> (arrays s).
Proof.
  intros Hleaf Hl.
  unfold mapSingleChildIntoContext. cbn [func contextAt result keyPrefix
                                         context count].
  destruct (f this child index) as
    [ | | b | str | n | e | e | items | isEntries items | str keys | id ]
    eqn:Hm;
    cbn [isArray isNullish negb isValidElement].
  all: try (eexists; split; [reflexivity|];
            unfold emitOne; cbn [isNullish]; rewrite app_nil_r;
            symmetry; now apply list_insert_id).
  all: try (match goal with
            | |- context [push (Some l) ?v] =>
                destruct (push_lookup l v out s Hl) as (s' & Hpush & Harr & _)
            end;
            exists s'; unfold bind; rewrite Hpush;
            split; [reflexivity | exact Harr]).
  destruct (Hmi child index items k s out Hleaf Hm Hl) as (s' & Hrun & Harr).
  unfold bind. rewrite Hrun. exists s'. split; [|exact Harr].
  unfold traversalOutcome.
  destruct (firstInvalid (traversed (VArray items))); reflexivity.
Qed.

Lemma run_map (evs : list event) :
  Forall leafEvent evs ->
  forall n index s out,
    arrays s !! l = Some out ->
    exists s',
      runEvents (mapSingleChildIntoContext mi) evs
        (n, contextAt l p f this index) s
      = (traversalOutcome (snd (mapModel p f this index (visited evs))) evs
           (n + length (visited evs),
            contextAt l p f this (index + length (visited evs))), s')
      /\ arrays s'
         = <[l := out ++ fst (mapModel p f this index (visited evs))]>
             (arrays s).
Proof.
  induction 1 as [|[child k|isEntries|str keys] evs Hev _ IH];
    intros n index s out Hl.
  - exists s. cbn. rewrite !Nat.add_0_r, app_nil_r. split; [reflexivity|].
    symmetry. now apply list_insert_id.
  - cbn in Hev.
    destruct (mapSingle_step child k index s out Hev Hl) as (s1 & Hstep & Harr).
    cbn [runEvents visited mapModel fst snd]. unfold bind. rewrite Hstep.
    assert (Hl1 : forall xs, arrays s1 = <[l := out ++ xs]> (arrays s) ->
                             arrays s1 !! l = Some (out ++ xs)).
    { intros xs ->. apply list_lookup_insert_eq.
      now apply lookup_lt_Some in Hl. }
    destruct (isArray (f this child index)) eqn:Harray.
    + unfold traversalOutcome at 1.
      destruct (firstInvalid (traversed (f this child index))) as [o|] eqn:Hinv.
      * exists s1. split; [reflexivity | exact Harr].
      * destruct (IH (S n) (S index) s1 _ (Hl1 _ Harr)) as (s2 & Hrun & Harr2).
        exists s2. rewrite Hrun.
        destruct (mapModel p f this (S index) (visited evs)) as [out' o'].
        cbn [fst snd length]. rewrite !Nat.add_succ_r. split; [reflexivity|].
        rewrite Harr2, Harr, list_insert_insert_eq, app_assoc. reflexivity.
    + destruct (IH (S n) (S index) s1 _ (Hl1 _ Harr)) as (s2 & Hrun & Harr2).
      exists s2. rewrite Hrun.
      destruct (mapModel p f this (S index) (visited evs)) as [out' o'].
      cbn [fst snd length]. rewrite !Nat.add_succ_r. split; [reflexivity|].
      rewrite Harr2, Harr, list_insert_insert_eq, app_assoc. reflexivity.
  - destruct (warnAboutMaps_returns isEntries s) as (s1 & Hw & Harr & _).
    cbn [runEvents visited]. unfold bind. rewrite Hw.
    rewrite <- Harr in Hl.
    destruct (IH n index s1 out Hl) as (s2 & Hrun & Harr2).
    exists s2. split; [|now rewrite Harr2, Harr].
    rewrite Hrun. reflexivity.
  - exists s. rewrite runEvents_invalid.
    cbn [visited mapModel fst snd firstInvalid length].
    rewrite app_nil_r.
    split; [reflexivity | symmetry; now apply list_insert_id].
Qed.

End MapCallback.

(** *** [mapIntoWithKeyPrefixInternal] *)

Lemma getPooledTraverseContext_returns (r : option nat) (kp : option string)
  (fn : option mapfn) (this : value) (s : State) :
  exists s',
    getPooledTraverseContext r kp fn this s
    = (Return {| result := r; keyPrefix := kp; func := fn; context := this;
                 count := 0 |}, s')
    /\ arrays s' = arrays s.
Proof.
  unfold getPooledTraverseContext.
  destruct (pop (traverseContextPool s)) as [[c rest]|];
    eexists; split; reflexivity.
Qed.

Lemma releaseTraverseContext_returns (c : TraverseContext) (s : State) :
  exists s',
    releaseTraverseContext c s = (Return tt, s') /\ arrays s' = arrays s.
Proof.
  unfold releaseTraverseContext.
  destruct (Nat.ltb _ _); eexists; split; reflexivity.
Qed.

Lemma visited_leaf (evs : list event) :
  Forall leafEvent evs ->
  Forall (fun v => isLeaf (fst v) = true) (visited evs).
Proof.
  induction 1 as [|[child k|isEntries|str keys] evs Hev _ IH]; cbn;
    auto using Forall_nil, Forall_cons.
Qed.

Lemma leaf_not_array (v : value) : isLeaf v = true -> isArray v = false.
Proof. destruct v; cbn; congruence. Qed.

Lemma mapModel_identity (p : option string) (this : value)
  (vs : list (value * string)) :
  Forall (fun v => isLeaf (fst v) = true) vs ->
  forall index,
    mapModel p (fun _ c _ => c) this index vs = (emitLeaves p vs, None).
Proof.
  induction 1 as [|[child k] vs Hv _ IH]; intros index; [reflexivity|].
  cbn [mapModel]. cbn in Hv. rewrite (leaf_not_array _ Hv), IH. reflexivity.
Qed.

Lemma mapInto_step (fuel : nat) (f : mapfn) (this : value) (l : nat) :
  (forall child index items k s out,
      isLeaf child = true ->
      f this child index = VArray items ->
      arrays s !! l = Some out ->
      exists s',
        mapIntoWithKeyPrefixInternal fuel (VArray items) (Some l) (Some k)
          (fun _ c _ => c) VUndefined s
        = (traversalOutcome None (traversed (VArray items)) tt, s')
        /\ arrays s'
           = <[l := out ++ emitLeaves (Some (escapeUserProvidedKey k +:+ "/"))
                             (visited (traversed (VArray items)))]>
               (arrays s)) ->
  forall children prefix s out,
    arrays s !! l = Some out ->
    exists s',
      mapIntoWithKeyPrefixInternal (S fuel) children (Some l) prefix f this s
      = (traversalOutcome
           (snd (mapModel (Some (escapedPrefixOf prefix)) f this 0
                   (visited (traversed children))))
           (traversed children) tt, s')
      /\ arrays s'
         = <[l := out ++ fst (mapModel (Some (escapedPrefixOf prefix)) f this 0
                                (visited (traversed children)))]> (arrays s).
Proof.
  intros Hmi children prefix s out Hl.
  cbn [mapIntoWithKeyPrefixInternal].
  fold (escapedPrefixOf prefix).
  destruct (getPooledTraverseContext_returns (Some l)
              (Some (escapedPrefixOf prefix)) (Some f) this s)
    as (s1 & Hget & Harr1).
  unfold bind at 1. rewrite Hget.
  unfold bind at 1. rewrite traverseAllChildren_events.
  fold (traversed children).
  rewrite <- Harr1 in Hl.
  destruct (run_map _ l (Some (escapedPrefixOf prefix)) f this Hmi
              (traversed children) (traversed_leaf children) 0 0 s1 out Hl)
    as (s2 & Hrun & Harr2).
  unfold contextAt in Hrun. rewrite Hrun.
  unfold traversalOutcome.
  destruct (snd (mapModel _ f this 0 (visited (traversed children))))
    as [o|].
  { exists s2. split; [reflexivity | now rewrite Harr2, Harr1]. }
  destruct (firstInvalid (traversed children)) as [o|].
  { exists s2. split; [reflexivity | now rewrite Harr2, Harr1]. }
  destruct (releaseTraverseContext_returns
              (contextAt l (Some (escapedPrefixOf prefix)) f this
                 (0 + length (visited (traversed children)))) s2)
    as (s3 & Hrel & Harr3).
  unfold contextAt in Hrel. rewrite Hrel.
  exists s3. split; [reflexivity | now rewrite Harr3, Harr2, Harr1].
Qed.

(** An identity pass never re-enters: any positive fuel does. *)
Lemma mapInto_identity (fuel : nat) (this : value) (l : nat)
  (children : value) (prefix : option string) (s : State) (out : list value) :
  arrays s !! l = Some out ->
  exists s',
    mapIntoWithKeyPrefixInternal (S fuel) children (Some l) prefix
      (fun _ c _ => c) this s
    = (traversalOutcome None (traversed children) tt, s')
    /\ arrays s'
       = <[l := out ++ emitLeaves (Some (escapedPrefixOf prefix))
                         (visited (traversed children))]> (arrays s).
Proof.
  intros Hl.
  destruct (mapInto_step fuel (fun _ c _ => c) this l) with
    (children := children) (prefix := prefix) (s := s) (out := out)
    as (s' & Hrun & Harr); [|exact Hl|].
  { intros child index items k s0 out0 Hleaf Heq. subst child. discriminate. }
  rewrite mapModel_identity in Hrun, Harr
    by (apply visited_leaf, traversed_leaf).
  exists s'. split; assumption.
Qed.

(** With any visitor, one more level is all a call needs. *)
Lemma mapInto_any (fuel : nat) (f : mapfn) (this : value) (l : nat)
  (children : value) (prefix : option string) (s : State) (out : list value) :
  arrays s !! l = Some out ->
  exists s',
    mapIntoWithKeyPrefixInternal (S (S fuel)) children (Some l) prefix f this s
    = (traversalOutcome
         (snd (mapModel (Some (escapedPrefixOf prefix)) f this 0
                 (visited (traversed children))))
         (traversed children) tt, s')
    /\ arrays s'
       = <[l := out ++ fst (mapModel (Some (escapedPrefixOf prefix)) f this 0
                              (visited (traversed children)))]> (arrays s).
Proof.
  intros Hl. apply mapInto_step; [|exact Hl].
  intros child index items k s0 out0 _ _ Hl0.
  apply (mapInto_identity fuel VUndefined l (VArray items) (Some k) s0 out0
           Hl0).
Qed.

(** *** Callbacks that leave the store alone *)

Lemma run_pure {C} (callback : C -> value -> string -> M C)
  (Pc : C -> Prop) (step : C -> C) :
  (forall ctx child k s,
      Pc ctx -> callback ctx child k s = (Return (step ctx), s)
                /\ Pc (step ctx)) ->
  forall evs n ctx s,
    Pc ctx ->
    exists s' ctx',
      runEvents callback evs (n, ctx) s
      = (traversalOutcome None evs (n + length (visited evs), ctx'), s').
Proof.
  intros Hcb.
  induction evs as [|[child k|isEntries|str keys] evs IH]; intros n ctx s Hctx.
  - exists s, ctx. cbn. now rewrite Nat.add_0_r.
  - destruct (Hcb ctx child k s Hctx) as [Hstep Hctx'].
    destruct (IH (S n) (step ctx) s Hctx') as (s' & ctx' & Hrun).
    exists s', ctx'. cbn [runEvents visited length fst snd]. unfold bind.
    rewrite Hstep, Hrun. unfold traversalOutcome. cbn [firstInvalid].
    now rewrite Nat.add_succ_r.
  - destruct (warnAboutMaps_returns isEntries s) as (s1 & Hw & _).
    destruct (IH n ctx s1 Hctx) as (s' & ctx' & Hrun).
    exists s', ctx'. cbn [runEvents visited]. unfold bind.
    rewrite Hw, Hrun. reflexivity.
  - exists s, ctx. rewrite runEvents_invalid. reflexivity.
Qed.

(** *** The operations *)

Lemma countChildren_spec (children : value) (s : State) :
  exists s',
    countChildren children s
    = (traversalOutcome None (traversed children)
         (length (visited (traversed children))), s').
Proof.
  unfold countChildren, bind. rewrite traverseAllChildren_events.
  fold (traversed children).
  destruct (run_pure (fun (c : unit) _ _ => ret c) (fun _ => True) (fun c => c))
    with (evs := traversed children) (n := 0) (ctx := tt) (s := s)
    as (s' & ctx' & Hrun); [now intros | exact I |].
  rewrite Hrun. exists s'. unfold traversalOutcome.
  destruct (firstInvalid (traversed children)); reflexivity.
Qed.

Lemma forEachChildren_spec (children : value) (f : mapfn) (this : value)
  (s : State) :
  isNullish children = false ->
  exists s',
    forEachChildren children f this s
    = (traversalOutcome None (traversed children) VUndefined, s').
Proof.
  intros Hnn. unfold forEachChildren. rewrite Hnn.
  destruct (getPooledTraverseContext_returns None None (Some f) this s)
    as (s1 & Hget & _).
  unfold bind at 1. rewrite Hget.
  unfold bind at 1. rewrite traverseAllChildren_events.
  fold (traversed children).
  destruct (run_pure forEachSingleChild
              (fun c => func c = Some f)
              (fun c => {| result := result c; keyPrefix := keyPrefix c;
                           func := Some f; context := context c;
                           count := S (count c) |}))
    with (evs := traversed children) (n := 0)
         (ctx := {| result := None; keyPrefix := None; func := Some f;
                    context := this; count := 0 |}) (s := s1)
    as (s2 & ctx' & Hrun).
  { intros ctx child k s0 Hf. unfold forEachSingleChild. rewrite Hf.
    split; reflexivity. }
  { reflexivity. }
  rewrite Hrun. unfold traversalOutcome.
  destruct (firstInvalid (traversed children)).
  { exists s2. reflexivity. }
  destruct (releaseTraverseContext_returns ctx' s2) as (s3 & Hrel & _).
  unfold bind. rewrite Hrel. exists s3. reflexivity.
Qed.

Lemma newArray_lookup (s : State) :
  exists s',
    newArray s = (Return (length (arrays s)), s')
    /\ arrays s' !! length (arrays s) = Some [].
Proof.
  eexists. split; [reflexivity|]. cbn.
  rewrite lookup_app_r by lia. now rewrite Nat.sub_diag.
Qed.

Lemma readArray_insert (l : nat) (xs : list value) (s s0 : State) :
  l < length (arrays s0) ->
  arrays s = <[l := xs]> (arrays s0) ->
  readArray l s = (Return xs, s).
Proof.
  intros Hlt Harr. unfold readArray.
  rewrite Harr, list_lookup_insert_eq by exact Hlt. reflexivity.
Qed.

Lemma toArray_spec (fuel : nat) (children : value) (s : State) :
  exists s',
    toArray (S fuel) children s
    = (traversalOutcome None (traversed children)
         (VArray (emitLeaves (Some "") (visited (traversed children)))), s').
Proof.
  unfold toArray.
  destruct (newArray_lookup s) as (s1 & Hnew & Hl).
  unfold bind at 1. rewrite Hnew.
  destruct (mapInto_identity fuel VUndefined _ children None s1 [] Hl)
    as (s2 & Hrun & Harr).
  unfold bind at 1. rewrite Hrun. cbn [escapedPrefixOf app] in Harr.
  unfold traversalOutcome.
  destruct (firstInvalid (traversed children)).
  { exists s2. reflexivity. }
  unfold bind.
  rewrite (readArray_insert _ _ s2 s1 (lookup_lt_Some _ _ _ Hl) Harr).
  exists s2. reflexivity.
Qed.

Lemma mapChildren_nullish (fuel : nat) (children : value) (f : mapfn)
  (this : value) (s : State) :
  isNullish children = true ->
  mapChildren fuel children f this s = (Return children, s).
Proof. intros H. unfold mapChildren. now rewrite H. Qed.

Lemma mapChildren_spec (fuel : nat) (children : value) (f : mapfn)
  (this : value) (s : State) :
  isNullish children = false ->
  exists s',
    mapChildren (S (S fuel)) children f this s
    = (traversalOutcome
         (snd (mapModel (Some "") f this 0 (visited (traversed children))))
         (traversed children)
         (VArray (fst (mapModel (Some "") f this 0
                         (visited (traversed children))))), s').
Proof.
  intros Hnn. unfold mapChildren. rewrite Hnn.
  destruct (newArray_lookup s) as (s1 & Hnew & Hl).
  unfold bind at 1. rewrite Hnew.
  destruct (mapInto_any fuel f this _ children None s1 [] Hl)
    as (s2 & Hrun & Harr).
  unfold bind at 1. rewrite Hrun. cbn [escapedPrefixOf app] in *.
  unfold traversalOutcome.
  destruct (snd (mapModel (Some "") f this 0 (visited (traversed children)))).
  { exists s2. reflexivity. }
  destruct (firstInvalid (traversed children)).
  { exists s2. reflexivity. }
  unfold bind.
  rewrite (readArray_insert _ _ s2 s1 (lookup_lt_Some _ _ _ Hl) Harr).
  exists s2. reflexivity.
Qed.

(** *** Counting *)

Lemma nullVisits_app (a b : list event) :
  nullVisits (a ++ b) = nullVisits a + nullVisits b.
Proof.
  induction a as [|[[]|?|] a IH]; cbn; try rewrite IH; reflexivity.
Qed.

Lemma nullVisits_events (v : value) :
  forall nameSoFar, nullVisits (events v nameSoFar) = emptyLeaves v.
Proof.
  induction v as
    [ | | b | str | n | e | e | items IH | isEntries items IH | str keys | id ]
    using value_ind'; intros nameSoFar; try reflexivity.
  - rewrite events_array. cbn [emptyLeaves].
    generalize 0, (nextNamePrefix nameSoFar).
    induction IH as [|x xs Hx _ IHxs]; intros i prefix; [reflexivity|].
    cbn [eventsOfItems map list_sum foldr].
    rewrite nullVisits_app, Hx, IHxs. reflexivity.
  - rewrite events_iterable. cbn [emptyLeaves nullVisits].
    generalize 0, (nextNamePrefix nameSoFar).
    induction IH as [|x xs Hx _ IHxs]; intros i prefix; [reflexivity|].
    cbn [eventsOfItems map list_sum foldr].
    rewrite nullVisits_app, Hx, IHxs. reflexivity.
Qed.

Lemma nullVisits_traversed (T : value) :
  nullVisits (traversed T) = if isNullish T then 0 else emptyLeaves T.
Proof.
  unfold traversed. destruct (isNullish T);
    [reflexivity | apply nullVisits_events].
Qed.

Lemma emitOne_leaf_length (p : option string) (child : value) (k : string) :
  isLeaf child = true ->
  length (emitOne p child k child)
  = match child with VNull => 0 | _ => 1 end.
Proof. destruct child; cbn; congruence. Qed.

Lemma visited_length (p : option string) (evs : list event) :
  Forall leafEvent evs ->
  firstInvalid evs = None ->
  length (visited evs)
  = length (emitLeaves p (visited evs)) + nullVisits evs.
Proof.
  induction 1 as [|[child k|isEntries|str keys] evs Hev _ IH];
    cbn [firstInvalid visited nullVisits]; intros Hnone.
  - reflexivity.
  - unfold emitLeaves in *. cbn [flat_map length fst snd].
    rewrite length_app, (emitOne_leaf_length _ _ _ Hev), (IH Hnone).
    destruct child; cbn in Hev |- *; try discriminate; lia.
  - apply IH, Hnone.
  - discriminate.
Qed.

(** C1, as amended.  [countChildren] and [toArray] fail on the same
    trees with the same error; where they return, the count is the
    length of the array plus the number of [null], [undefined] and
    boolean leaves the traversal visits (none for a [null] or
    [undefined] root, which is not traversed).  The two numbers agree
    exactly on the trees without such a leaf. *)
Theorem countChildren_toArray_length (fuel : nat) (T : value) (s : State) :
  match fst (countChildren T s), fst (toArray (S fuel) T s) with
  | Return n, Return (VArray items) =>
      n = length items + (if isNullish T then 0 else emptyLeaves T)
  | Throw e, Throw e' => e = e'
  | _, _ => False
  end.
Proof.
  destruct (countChildren_spec T s) as (s1 & ->).
  destruct (toArray_spec fuel T s) as (s2 & ->).
  cbn [fst]. unfold traversalOutcome.
  destruct (firstInvalid (traversed T)) eqn:Hinv; [reflexivity|].
  rewrite <- nullVisits_traversed.
  apply visited_length; [apply traversed_leaf | exact Hinv].
Qed.

(** *** Keys of an identity pass *)

Lemma keyDiffers_refl (k : option string) : keyDiffers k k = false.
Proof.
  destruct k as [k|]; cbn; [now rewrite String.eqb_refl | reflexivity].
Qed.

Lemma userKeySegment_same (child : value) :
  userKeySegment child child = "".
Proof.
  unfold userKeySegment. rewrite keyDiffers_refl, orb_false_r.
  destruct child; cbn [key_of truthyKey falsy andb]; try reflexivity;
    now rewrite andb_false_r.
Qed.

Lemma emitOne_element_identity (prefix : string) (e : ReactElement)
  (k : string) :
  emitOne (Some prefix) (VElement e) k (VElement e)
  = [cloneAndReplaceKey (VElement e) (prefix +:+ k)].
Proof.
  unfold emitOne. cbn [isNullish isValidElement stringOfNullable].
  now rewrite userKeySegment_same.
Qed.

(** C2.  For elements [a] and [b], mapping [[a, null, b]] with the
    identity returns two items, the clones of [a] and of [b] in that
    order, each re-keyed with its path (the third position keeps index
    2): the [null] leaf is not in the output.  [countChildren] of the
    same tree is 3. *)
Theorem mapChildren_drops_null_countChildren_counts_it (fuel : nat)
  (a b : ReactElement) (this : value) (s : State) :
  fst (mapChildren (S (S fuel)) (VArray [VElement a; VNull; VElement b])
         (fun _ c _ => c) this s)
  = Return (VArray
      [cloneAndReplaceKey (VElement a)
         (SEPARATOR +:+ getComponentKey (VElement a) 0);
       cloneAndReplaceKey (VElement b)
         (SEPARATOR +:+ getComponentKey (VElement b) 2)])
  /\ fst (countChildren (VArray [VElement a; VNull; VElement b]) s)
     = Return 3.
Proof.
  split.
  - destruct (mapChildren_spec fuel (VArray [VElement a; VNull; VElement b])
                (fun _ c _ => c) this s eq_refl) as (s' & ->).
    cbn [fst]. unfold traversed. cbn [isNullish].
    rewrite events_array.
    cbn [eventsOfItems events app visited mapModel isArray fst snd
         traversalOutcome firstInvalid].
    rewrite !emitOne_element_identity. reflexivity.
  - destruct (countChildren_spec (VArray [VElement a; VNull; VElement b]) s)
      as (s' & ->).
    reflexivity.
Qed.

(** *** The key of a mapped element *)

Lemma userKeySegment_differs (child : value) (e : ReactElement)
  (c : ascii) (k : string) :
  key e = Some (String c k) ->
  key_of child <> Some (String c k) ->
  userKeySegment child (VElement e)
  = escapeUserProvidedKey (String c k) +:+ "/".
Proof.
  intros He Hne. unfold userKeySegment. cbn [key_of]. rewrite He.
  cbn [truthyKey andb default].
  replace (keyDiffers (key_of child) (Some (String c k))) with true;
    [now rewrite orb_true_r|].
  destruct (key_of child) as [k'|]; [|reflexivity]. cbn.
  destruct (String.eqb_spec k' (String c k)) as [->|]; [congruence|reflexivity].
Qed.

Lemma userKeySegment_same_key (child : value) (e : ReactElement)
  (k : string) :
  key e = Some k -> key_of child = Some k ->
  userKeySegment child (VElement e) = "".
Proof.
  intros He Hc. unfold userKeySegment. cbn [key_of]. rewrite He, Hc.
  rewrite keyDiffers_refl, orb_false_r.
  destruct child; try discriminate; cbn [falsy]; now rewrite andb_false_r.
Qed.

Lemma userKeySegment_none (child : value) (e : ReactElement) :
  key e = None -> userKeySegment child (VElement e) = "".
Proof. intros He. unfold userKeySegment. cbn [key_of]. now rewrite He. Qed.

Lemma userKeySegment_empty (child : value) (e : ReactElement) :
  key e = Some "" -> userKeySegment child (VElement e) = "".
Proof. intros He. unfold userKeySegment. cbn [key_of]. now rewrite He. Qed.

(** What the callback appends for a visitor result that is an
    element: the clone keyed [prefix + userKeySegment + childKey]. *)
Lemma mapSingle_element
  (mi : value -> option nat -> option string -> mapfn -> value -> M unit)
  (l : nat) (prefix : string) (f : mapfn) (this child : value) (k : string)
  (index : nat) (e : ReactElement) (s : State) (out : list value) :
  f this child index = VElement e ->
  arrays s !! l = Some out ->
  exists s',
    mapSingleChildIntoContext mi (contextAt l (Some prefix) f this index)
      child k s
    = (Return (contextAt l (Some prefix) f this (S index)), s')
    /\ arrays s'
       = <[l := out ++
                [cloneAndReplaceKey (VElement e)
                   (prefix +:+ userKeySegment child (VElement e) +:+ k)]]>
           (arrays s).
Proof.
  intros Hf Hl.
  unfold mapSingleChildIntoContext.
  cbn [func contextAt result keyPrefix context count]. rewrite Hf.
  cbn [isNullish negb isValidElement stringOfNullable].
  fold (userKeySegment child (VElement e)).
  destruct (push_lookup l
              (cloneAndReplaceKey (VElement e)
                 (prefix +:+ userKeySegment child (VElement e) +:+ k))
              out s Hl) as (s' & Hpush & Harr & _).
  exists s'. unfold bind. rewrite Hpush. split; [reflexivity | exact Harr].
Qed.

(** C3, at the input where the code leaves the claim.  The child has
    no key, the visitor returns an element whose explicit key is the
    empty string: the two keys differ, yet the clone is keyed [.0],
    with no user segment, where the claim calls for [/.0]. *)
Theorem mapChildren_empty_key_has_no_segment (fuel p q : nat) (s : State) :
  fst (mapChildren (S (S fuel)) (elt None p)
         (fun _ _ _ => elt (Some "") q) VUndefined s)
  = Return (VArray [elt (Some ".0") q])
  /\ key_of (elt None p) <> key_of (elt (Some "") q)
  /\ "" +:+ (escapeUserProvidedKey "" +:+ "/") +:+ ".0" = "/.0".
Proof.
  split; [|split; [discriminate | reflexivity]].
  destruct (mapChildren_spec fuel (elt None p)
              (fun _ _ _ => elt (Some "") q) VUndefined s eq_refl)
    as (s' & ->).
  reflexivity.
Qed.

(** *** Wrapping every leaf in an array *)

Lemma events_of_leaf (child : value) (nameSoFar : string) :
  isLeaf child = true ->
  events child nameSoFar = [Visit child (leafName child nameSoFar)].
Proof. destruct child; cbn; congruence. Qed.

Lemma traversed_singleton (child : value) :
  isLeaf child = true ->
  traversed (VArray [child])
  = [Visit child (SEPARATOR +:+ getComponentKey child 0)].
Proof.
  intros Hleaf. unfold traversed. cbn [isNullish]. rewrite events_array.
  cbn [eventsOfItems]. rewrite (events_of_leaf _ _ Hleaf). reflexivity.
Qed.

Lemma mapModel_wrap (p : option string) (this : value)
  (vs : list (value * string)) :
  Forall (fun v => isLeaf (fst v) = true) vs ->
  forall index,
    mapModel p (fun _ x _ => VArray [x]) this index vs
    = (wrappedLeaves vs, None).
Proof.
  induction 1 as [|[child k] vs Hv _ IH]; intros index; [reflexivity|].
  cbn [mapModel isArray]. cbn in Hv.
  rewrite (traversed_singleton _ Hv), IH.
  cbn [firstInvalid visited emitLeaves flat_map fst snd wrappedLeaves].
  now rewrite app_nil_r.
Qed.

Lemma eraseKey_emitOne (p p' : option string) (child : value)
  (k k' : string) :
  map eraseKey (emitOne p child k child)
  = map eraseKey (emitOne p' child k' child).
Proof. destruct child; reflexivity. Qed.

Lemma eraseKey_wrappedLeaves (p : option string)
  (vs : list (value * string)) :
  map eraseKey (wrappedLeaves vs) = map eraseKey (emitLeaves p vs).
Proof.
  unfold wrappedLeaves, emitLeaves.
  induction vs as [|[child k] vs IH]; [reflexivity|].
  cbn [flat_map fst snd]. rewrite !map_app, IH.
  f_equal. apply eraseKey_emitOne.
Qed.

(** C4, as amended.  Mapping with [x => [x]] returns the same leaves
    in the same order as mapping with the identity, none duplicated,
    dropped or moved, and fails on the same trees with the same error;
    the outputs that are not elements are the same values and the
    cloned elements differ in their key only. *)
Theorem mapChildren_wrap_identity_up_to_keys (fuel : nat) (T this : value)
  (s : State) :
  eraseKeys (fst (mapChildren (S (S fuel)) T (fun _ x _ => VArray [x]) this s))
  = eraseKeys (fst (mapChildren (S (S fuel)) T (fun _ x _ => x) this s)).
Proof.
  destruct (isNullish T) eqn:Hnn.
  { now rewrite !mapChildren_nullish by exact Hnn. }
  destruct (mapChildren_spec fuel T (fun _ x _ => VArray [x]) this s Hnn)
    as (s1 & ->).
  destruct (mapChildren_spec fuel T (fun _ x _ => x) this s Hnn) as (s2 & ->).
  rewrite mapModel_wrap, mapModel_identity
    by (apply visited_leaf, traversed_leaf).
  cbn [fst snd]. unfold traversalOutcome.
  destruct (firstInvalid (traversed T)); [reflexivity|].
  cbn [eraseKeys]. now rewrite eraseKey_wrappedLeaves with (p := Some "").
Qed.

(** Under [x => [x]] a cloned leaf is keyed by its escaped path, a
    slash, and its key as the only item of an array. *)
Lemma mapChildren_wrap_outputs (fuel : nat) (T this : value) (s : State) :
  isNullish T = false ->
  fst (mapChildren (S (S fuel)) T (fun _ x _ => VArray [x]) this s)
  = traversalOutcome None (traversed T)
      (VArray (wrappedLeaves (visited (traversed T)))).
Proof.
  intros Hnn.
  destruct (mapChildren_spec fuel T (fun _ x _ => VArray [x]) this s Hnn)
    as (s1 & ->).
  now rewrite mapModel_wrap by (apply visited_leaf, traversed_leaf).
Qed.

(** *** The single child *)

(** C5.  [onlyChild] returns its argument when that is an element and
    raises the single-child error for everything else, with no
    traversal: an array or an iterable holding one element is
    rejected. *)
Theorem onlyChild_element_or_error (children : value) (s : State) :
  onlyChild children s
  = ((if isValidElement children then Return children
      else Throw (InvariantViolation onlyChildMessage)), s)
  /\ (forall e, isValidElement (VElement e) = true)
  /\ (forall e, isValidElement (VArray [VElement e]) = false)
  /\ (forall e isEntries,
        isValidElement (VIterable isEntries [VElement e]) = false).
Proof.
  split; [|repeat split].
  unfold onlyChild, invariant, bind.
  destruct (isValidElement children); reflexivity.
Qed.

(** *** Invalid children *)

Lemma firstInvalid_app (a b : list event) :
  firstInvalid (a ++ b)
  = match firstInvalid a with
    | Some o => Some o
    | None => firstInvalid b
    end.
Proof. induction a as [|[| |] a IH]; cbn; auto. Qed.

Lemma firstInvalid_events (v : value) :
  forall nameSoFar, firstInvalid (events v nameSoFar) = firstObject v.
Proof.
  induction v as
    [ | | b | str | n | e | e | items IH | isEntries items IH | str keys | id ]
    using value_ind'; intros nameSoFar; try reflexivity.
  - rewrite events_array. cbn [firstObject].
    generalize 0, (nextNamePrefix nameSoFar).
    induction IH as [|x xs Hx _ IHxs]; intros i prefix; [reflexivity|].
    cbn [eventsOfItems]. rewrite firstInvalid_app, Hx, IHxs. reflexivity.
  - rewrite events_iterable. cbn [firstObject firstInvalid].
    generalize 0, (nextNamePrefix nameSoFar).
    induction IH as [|x xs Hx _ IHxs]; intros i prefix; [reflexivity|].
    cbn [eventsOfItems]. rewrite firstInvalid_app, Hx, IHxs. reflexivity.
Qed.

Lemma firstObject_traversed (T : value) (o : option string * list string) :
  firstObject T = Some o ->
  isNullish T = false /\ firstInvalid (traversed T) = Some o.
Proof.
  intros H. unfold traversed.
  destruct T; try discriminate; cbn [isNullish];
    (split; [reflexivity|]); now rewrite firstInvalid_events.
Qed.

Lemma mapModel_no_arrays (p : option string) (f : mapfn) (this : value)
  (vs : list (value * string)) :
  (forall child index, isArray (f this child index) = false) ->
  forall index, snd (mapModel p f this index vs) = None.
Proof.
  intros Hf. induction vs as [|[child k] vs IH]; intros index; [reflexivity|].
  cbn [mapModel]. rewrite Hf. specialize (IH (S index)).
  destruct (mapModel p f this (S index) vs). exact IH.
Qed.

Lemma includes_refl (x : string) : includes x x.
Proof. exists "", "". now rewrite append_empty_r. Qed.

Lemma includes_app_l (x a b : string) : includes x b -> includes x (a +:+ b).
Proof.
  intros (u & v & ->). exists (a +:+ u), v. now rewrite append_assoc.
Qed.

Lemma includes_app_r (x a b : string) : includes x a -> includes x (a +:+ b).
Proof.
  intros (u & v & ->). exists u, (v +:+ b). now rewrite !append_assoc.
Qed.

Lemma includes_join (sep x : string) (xs : list string) :
  In x xs -> includes x (join sep xs).
Proof.
  induction xs as [|y [|z xs] IH]; intros Hin.
  - destruct Hin.
  - destruct Hin as [->|[]]. apply includes_refl.
  - change (join sep (y :: z :: xs)) with (y +:+ sep +:+ join sep (z :: xs)).
    destruct Hin as [->|Hin].
    + apply includes_app_r, includes_refl.
    + now apply includes_app_l, includes_app_l, IH.
Qed.

Lemma invalidChildMessage_keys (keys : list string) (k : string) :
  In k keys -> includes k (invalidChildMessage "[object Object]" keys).
Proof.
  intros Hin. unfold invalidChildMessage. cbn [String.eqb Ascii.eqb Bool.eqb].
  apply includes_app_l, includes_app_r, includes_app_l, includes_app_r.
  now apply includes_join.
Qed.

Lemma invalidChildMessage_string (str : string) (keys : list string) :
  str <> "[object Object]" -> includes str (invalidChildMessage str keys).
Proof.
  intros Hne. unfold invalidChildMessage.
  destruct (String.eqb_spec str "[object Object]") as [|_]; [contradiction|].
  apply includes_app_l, includes_app_r, includes_refl.
Qed.

(** Where the first object the traversal reaches that is neither a
    leaf, an array nor an iterable has a string conversion, each of
    the four operations fails with the invalid-child error of that
    object ([mapChildren] with a visitor that returns arrays may meet
    one in a returned array first, and fails with that one's error).
    The message lists every property name of an object whose
    conversion is ["[object Object]"] and carries the string
    conversion of any other object. *)
Lemma invalid_child_error (T : value) (str : string) (keys : list string) :
  firstObject T = Some (Some str, keys) ->
  forall (fuel : nat) (f : mapfn) (this : value) (s : State),
    let err := InvariantViolation (invalidChildMessage str keys) in
    fst (countChildren T s) = Throw err
    /\ fst (forEachChildren T f this s) = Throw err
    /\ fst (toArray (S fuel) T s) = Throw err
    /\ (exists o,
          fst (mapChildren (S (S fuel)) T f this s)
          = Throw (invalidChildError o))
    /\ ((forall child index, isArray (f this child index) = false) ->
        fst (mapChildren (S (S fuel)) T f this s) = Throw err)
    /\ (str = "[object Object]" ->
        forall k, In k keys -> includes k (invalidChildMessage str keys))
    /\ (str <> "[object Object]" ->
        includes str (invalidChildMessage str keys)).
Proof.
  intros Hobj fuel f this s err.
  destruct (firstObject_traversed T _ Hobj) as [Hnn Hinv].
  repeat split.
  - destruct (countChildren_spec T s) as (s' & ->).
    cbn [fst]. unfold traversalOutcome. now rewrite Hinv.
  - destruct (forEachChildren_spec T f this s Hnn) as (s' & ->).
    cbn [fst]. unfold traversalOutcome. now rewrite Hinv.
  - destruct (toArray_spec fuel T s) as (s' & ->).
    cbn [fst]. unfold traversalOutcome. now rewrite Hinv.
  - destruct (mapChildren_spec fuel T f this s Hnn) as (s' & ->).
    cbn [fst]. unfold traversalOutcome. rewrite Hinv.
    destruct (snd (mapModel _ f this 0 _)) as [o|]; eexists; reflexivity.
  - intros Hf.
    destruct (mapChildren_spec fuel T f this s Hnn) as (s' & ->).
    cbn [fst]. unfold traversalOutcome.
    now rewrite (mapModel_no_arrays _ _ _ _ Hf), Hinv.
  - intros ->. apply invalidChildMessage_keys.
  - apply invalidChildMessage_string.
Qed.

(** C6.  The code falls short of the claim at an object that has no
    string conversion (a plain object without a prototype, such as
    [Object.create(null)] given properties): when that is the first
    invalid object the traversal reaches, [countChildren],
    [forEachChildren], [toArray] and [mapChildren] (with a visitor
    that returns no array) fail with the [TypeError] of the
    conversion ['' + children], which is no invalid-child error and
    names none of the object's properties; [invariant] is never
    reached. *)
Theorem invalid_child_without_string_conversion (T : value)
  (keys : list string) :
  firstObject T = Some (None, keys) ->
  forall (fuel : nat) (f : mapfn) (this : value) (s : State),
    fst (countChildren T s) = Throw conversionError
    /\ fst (forEachChildren T f this s) = Throw conversionError
    /\ fst (toArray (S fuel) T s) = Throw conversionError
    /\ ((forall child index, isArray (f this child index) = false) ->
        fst (mapChildren (S (S fuel)) T f this s) = Throw conversionError)
    /\ (forall message, conversionError <> InvariantViolation message)
    /\ (forall str,
          conversionError
          <> InvariantViolation (invalidChildMessage str keys)).
Proof.
  intros Hobj fuel f this s.
  destruct (firstObject_traversed T _ Hobj) as [Hnn Hinv].
  repeat split.
  - destruct (countChildren_spec T s) as (s' & ->).
    cbn [fst]. unfold traversalOutcome. now rewrite Hinv.
  - destruct (forEachChildren_spec T f this s Hnn) as (s' & ->).
    cbn [fst]. unfold traversalOutcome. now rewrite Hinv.
  - destruct (toArray_spec fuel T s) as (s' & ->).
    cbn [fst]. unfold traversalOutcome. now rewrite Hinv.
  - intros Hf.
    destruct (mapChildren_spec fuel T f this s Hnn) as (s' & ->).
    cbn [fst]. unfold traversalOutcome.
    now rewrite (mapModel_no_arrays _ _ _ _ Hf), Hinv.
  - discriminate.
  - discriminate.
Qed.

(** *** Null and undefined roots *)

(** C7.  [mapChildren] hands a [null] or [undefined] root back as it
    is, without touching the store.  [toArray] returns an array
    whenever it returns: its only other outcome is the error of an
    invalid object; for a [null] or [undefined] root that array is empty. *)
Theorem mapChildren_passes_nullish_toArray_returns_array :
  (forall fuel f this s, mapChildren fuel VNull f this s = (Return VNull, s))
  /\ (forall fuel f this s,
        mapChildren fuel VUndefined f this s = (Return VUndefined, s))
  /\ (forall fuel T s,
        (exists items, fst (toArray (S fuel) T s) = Return (VArray items))
        \/ (exists o, fst (toArray (S fuel) T s) = Throw (invalidChildError o)))
  /\ (forall fuel s, fst (toArray (S fuel) VNull s) = Return (VArray []))
  /\ (forall fuel s, fst (toArray (S fuel) VUndefined s) = Return (VArray [])).
Proof.
  repeat split.
  - intros fuel T s. destruct (toArray_spec fuel T s) as (s' & ->).
    cbn [fst]. unfold traversalOutcome.
    destruct (firstInvalid (traversed T)) as [o|]; eauto.
  - intros fuel s. destruct (toArray_spec fuel VNull s) as (s' & ->).
    reflexivity.
  - intros fuel s. destruct (toArray_spec fuel VUndefined s) as (s' & ->).
    reflexivity.
Qed.

(** *** A lone child and a one-item array *)

Lemma traversed_lone_leaf (v : value) :
  leafNode v = true ->
  isNullish v = false ->
  traversed v = traversed (VArray [v]).
Proof.
  intros Hleaf Hnn. unfold traversed. rewrite Hnn. cbn [isNullish].
  rewrite events_array.
  destruct v; try discriminate; reflexivity.
Qed.

Lemma mapInto_lone_leaf (fuel : nat) (v : value) (array : option nat)
  (prefix : option string) (this : value) (s : State) :
  leafNode v = true ->
  mapIntoWithKeyPrefixInternal fuel v array prefix (fun _ c _ => c) this s
  = mapIntoWithKeyPrefixInternal fuel (VArray [v]) array prefix
      (fun _ c _ => c) this s.
Proof.
  intros Hleaf. destruct fuel as [|fuel]; [reflexivity|].
  cbn [mapIntoWithKeyPrefixInternal].
  fold (escapedPrefixOf prefix).
  destruct (getPooledTraverseContext_returns array
              (Some (escapedPrefixOf prefix))
              (@Some mapfn (fun _ c _ => c)) this s)
    as (s1 & Hget & _).
  unfold bind at 1 3. rewrite Hget.
  destruct (isNullish v) eqn:Hnn.
  - destruct v; try discriminate; reflexivity.
  - unfold bind.
    rewrite !traverseAllChildren_events.
    fold (traversed v). fold (traversed (VArray [v])).
    now rewrite (traversed_lone_leaf v Hleaf Hnn).
Qed.

(** C8.  For a single leaf, [toArray] of the leaf and [toArray] of
    the one-item array holding it do the same thing, so the leaf gets
    the same key: in both the callback is handed the name made of the
    separator and the leaf's component key at index 0. *)
Theorem toArray_lone_leaf_same_key (v : value) :
  leafNode v = true ->
  (forall fuel s, toArray fuel v s = toArray fuel (VArray [v]) s)
  /\ traversed (VArray [v])
     = [Visit (if isLeaf v then v else VNull)
          (SEPARATOR +:+ getComponentKey v 0)]
  /\ (isNullish v = false -> traversed v = traversed (VArray [v]))
  /\ (forall fuel s,
        fst (toArray (S fuel) v s)
        = Return (VArray (emitOne (Some "") (if isLeaf v then v else VNull)
                            (SEPARATOR +:+ getComponentKey v 0)
                            (if isLeaf v then v else VNull)))).
Proof.
  intros Hleaf.
  assert (Hsame : forall fuel s,
             toArray fuel v s = toArray fuel (VArray [v]) s);
    [|split; [exact Hsame|split; [|split]]].
  - intros fuel s. unfold toArray, bind.
    destruct (newArray s) as [[l| |] s1]; try reflexivity.
    rewrite (mapInto_lone_leaf fuel v (Some l) None VUndefined s1 Hleaf).
    reflexivity.
  - unfold traversed. cbn [isNullish]. rewrite events_array.
    destruct v; try discriminate; reflexivity.
  - apply traversed_lone_leaf, Hleaf.
  - intros fuel s. rewrite Hsame.
    destruct (toArray_spec fuel (VArray [v]) s) as (s' & ->).
    cbn [fst]. unfold traversed. cbn [isNullish]. rewrite events_array.
    destruct v; try discriminate; cbn; now rewrite ?app_nil_r.
Qed.

(** *** Escaping an explicit key *)

Lemma replaceChars_escape (key : string) :
  replaceChars escapeRegex escaperLookup key
  = string_of_list_ascii (flat_map substituteChar (list_ascii_of_string key)).
Proof.
  induction key as [|c key IH]; [reflexivity|].
  cbn [replaceChars list_ascii_of_string flat_map]. rewrite IH.
  unfold escapeRegex, escaperLookup, substituteChar.
  destruct (Ascii.eqb c "="); [reflexivity|].
  destruct (Ascii.eqb c ":"); reflexivity.
Qed.

(** C9.  [escape] is the character-by-character substitution of the
    spec: [=] becomes [=0], [:] becomes [=2], in one pass, behind a
    [$].  An element with the explicit key [a:b=c] has the component
    key [$a=2b=0c], and that is its segment in the path [toArray]
    gives it. *)
Theorem escape_explicit_key :
  (forall key, escape key = escapeExplicitKey key)
  /\ escape "a:b=c" = "$a=2b=0c"
  /\ (forall p index, getComponentKey (elt (Some "a:b=c") p) index = "$a=2b=0c")
  /\ (forall fuel p s,
        fst (toArray (S fuel) (VArray [elt (Some "a:b=c") p]) s)
        = Return (VArray [elt (Some ".$a=2b=0c") p])).
Proof.
  repeat split.
  - intros key. unfold escape, escapeExplicitKey.
    now rewrite replaceChars_escape.
  - intros fuel p s.
    destruct (toArray_spec fuel (VArray [elt (Some "a:b=c") p]) s)
      as (s' & ->).
    reflexivity.
Qed.

(** *** The pool *)

Lemma pop_Some {A} (xs rest : list A) (x : A) :
  pop xs = Some (x, rest) -> xs = rest ++ [x].
Proof.
  unfold pop. destruct (rev xs) as [|y r] eqn:Hrev; [discriminate|].
  intros [= -> <-].
  rewrite <- (rev_involutive xs), Hrev. reflexivity.
Qed.

Lemma pool_ok_initial : pool_ok initialState.
Proof. split; [cbn; unfold POOL_SIZE; lia | constructor]. Qed.

Lemma pool_ok_same_pool (s s' : State) :
  traverseContextPool s' = traverseContextPool s -> pool_ok s -> pool_ok s'.
Proof. unfold pool_ok. now intros ->. Qed.

Lemma pool_ok_warnAboutMaps (isEntries : bool) (s : State) :
  pool_ok s -> pool_ok (snd (warnAboutMaps isEntries s)).
Proof.
  destruct (warnAboutMaps_returns isEntries s) as (s' & -> & _ & Hpool).
  now apply pool_ok_same_pool.
Qed.

Lemma pool_ok_push (array : option nat) (v : value) (s : State) :
  pool_ok s -> pool_ok (snd (push array v s)).
Proof.
  unfold push. destruct array as [l|]; [|trivial].
  destruct (arrays s !! l); trivial.
Qed.

Lemma pool_ok_getPooledTraverseContext (r : option nat) (kp : option string)
  (fn : option mapfn) (this : value) (s : State) :
  pool_ok s -> pool_ok (snd (getPooledTraverseContext r kp fn this s)).
Proof.
  intros [Hlen Hall]. unfold getPooledTraverseContext.
  destruct (pop (traverseContextPool s)) as [[c rest]|] eqn:Hpop;
    [|now split].
  apply pop_Some in Hpop. rewrite Hpop in Hlen, Hall.
  rewrite length_app in Hlen. apply Forall_app in Hall as [Hall _].
  split; cbn; [lia | exact Hall].
Qed.

Lemma pool_ok_releaseTraverseContext (c : TraverseContext) (s : State) :
  pool_ok s -> pool_ok (snd (releaseTraverseContext c s)).
Proof.
  intros [Hlen Hall]. unfold releaseTraverseContext.
  destruct (Nat.ltb_spec (length (traverseContextPool s)) POOL_SIZE)
    as [Hlt|_]; [|now split].
  split; cbn.
  - rewrite length_app. cbn. lia.
  - apply Forall_app. split; [exact Hall|].
    constructor; [now repeat split | constructor].
Qed.

Lemma pool_ok_bind {A B} (m : M A) (k : A -> M B) (s : State) :
  pool_ok (snd (m s)) ->
  (forall a s', pool_ok s' -> pool_ok (snd (k a s'))) ->
  pool_ok (snd (bind m k s)).
Proof.
  intros Hm Hk. unfold bind.
  destruct (m s) as [[a| |] s']; cbn in *; auto.
Qed.

Lemma pool_ok_runEvents {C} (callback : C -> value -> string -> M C) :
  (forall ctx child k s, pool_ok s -> pool_ok (snd (callback ctx child k s))) ->
  forall evs acc s,
    pool_ok s -> pool_ok (snd (runEvents callback evs acc s)).
Proof.
  intros Hcb.
  induction evs as [|[child k|isEntries|str keys] evs IH]; intros acc s Hs.
  - exact Hs.
  - cbn [runEvents]. apply pool_ok_bind; [now apply Hcb|].
    intros ctx s' Hs'. now apply IH.
  - cbn [runEvents]. apply pool_ok_bind; [now apply pool_ok_warnAboutMaps|].
    intros _ s' Hs'. now apply IH.
  - now rewrite runEvents_invalid.
Qed.

Lemma pool_ok_traverseAllChildren {C}
  (callback : C -> value -> string -> M C) :
  (forall ctx child k s, pool_ok s -> pool_ok (snd (callback ctx child k s))) ->
  forall children ctx s,
    pool_ok s -> pool_ok (snd (traverseAllChildren callback children ctx s)).
Proof.
  intros Hcb children ctx s Hs. rewrite traverseAllChildren_events.
  now apply pool_ok_runEvents.
Qed.

Lemma pool_ok_mapSingle
  (mi : value -> option nat -> option string -> mapfn -> value -> M unit) :
  (forall children array prefix f this s,
      pool_ok s -> pool_ok (snd (mi children array prefix f this s))) ->
  forall ctx child k s,
    pool_ok s -> pool_ok (snd (mapSingleChildIntoContext mi ctx child k s)).
Proof.
  intros Hmi ctx child k s Hs. unfold mapSingleChildIntoContext.
  destruct (func ctx) as [f|]; [|exact Hs].
  destruct (f (context ctx) child (count ctx));
    cbn [isNullish negb];
    try exact Hs;
    try (apply pool_ok_bind; [now apply pool_ok_push | now intros]).
  apply pool_ok_bind; [now apply Hmi | now intros].
Qed.

Lemma pool_ok_mapInto (fuel : nat) :
  forall children array prefix f this s,
    pool_ok s ->
    pool_ok (snd (mapIntoWithKeyPrefixInternal fuel children array prefix
                    f this s)).
Proof.
  induction fuel as [|fuel IH]; intros children array prefix f this s Hs;
    [exact Hs|].
  cbn [mapIntoWithKeyPrefixInternal].
  apply pool_ok_bind; [now apply pool_ok_getPooledTraverseContext|].
  intros ctx s1 Hs1.
  apply pool_ok_bind.
  - apply pool_ok_traverseAllChildren; [|exact Hs1].
    apply pool_ok_mapSingle, IH.
  - intros [n ctx'] s2 Hs2. now apply pool_ok_releaseTraverseContext.
Qed.

Lemma pool_ok_countChildren (T : value) (s : State) :
  pool_ok s -> pool_ok (snd (countChildren T s)).
Proof.
  intros Hs. unfold countChildren.
  apply pool_ok_bind; [|now intros [n []] s' Hs'].
  now apply pool_ok_traverseAllChildren.
Qed.

Lemma pool_ok_forEachChildren (T : value) (f : mapfn) (this : value)
  (s : State) :
  pool_ok s -> pool_ok (snd (forEachChildren T f this s)).
Proof.
  intros Hs. unfold forEachChildren. destruct (isNullish T); [apply Hs|].
  apply pool_ok_bind; [now apply pool_ok_getPooledTraverseContext|].
  intros ctx s1 Hs1. apply pool_ok_bind.
  - apply pool_ok_traverseAllChildren; [|exact Hs1].
    intros c child k s0 Hs0. unfold forEachSingleChild.
    destruct (func c); exact Hs0.
  - intros [n ctx'] s2 Hs2.
    apply pool_ok_bind; [now apply pool_ok_releaseTraverseContext|].
    now intros.
Qed.

Lemma pool_ok_newArray (s : State) : pool_ok s -> pool_ok (snd (newArray s)).
Proof. trivial. Qed.

Lemma pool_ok_readArray (l : nat) (s : State) :
  pool_ok s -> pool_ok (snd (readArray l s)).
Proof. unfold readArray. destruct (arrays s !! l); trivial. Qed.

Lemma pool_ok_toArray (fuel : nat) (T : value) (s : State) :
  pool_ok s -> pool_ok (snd (toArray fuel T s)).
Proof.
  intros Hs. unfold toArray.
  apply pool_ok_bind; [now apply pool_ok_newArray|].
  intros l s1 Hs1.
  apply pool_ok_bind; [now apply pool_ok_mapInto|].
  intros _ s2 Hs2.
  apply pool_ok_bind; [now apply pool_ok_readArray | now intros].
Qed.

Lemma pool_ok_mapChildren (fuel : nat) (T : value) (f : mapfn) (this : value)
  (s : State) :
  pool_ok s -> pool_ok (snd (mapChildren fuel T f this s)).
Proof.
  intros Hs. unfold mapChildren. destruct (isNullish T); [apply Hs|].
  apply pool_ok_bind; [now apply pool_ok_newArray|].
  intros l s1 Hs1.
  apply pool_ok_bind; [now apply pool_ok_mapInto|].
  intros _ s2 Hs2.
  apply pool_ok_bind; [now apply pool_ok_readArray | now intros].
Qed.

(** C10.  From a store whose pool holds at most ten contexts, all of
    them cleared (no accumulator, no visitor, no bind-context, no key
    prefix, count 0), every operation leaves a store whose pool holds
    at most ten contexts, all of them cleared, whatever the outcome: a
    normal return or an error that leaves the operation.  The pool
    starts empty, so this holds after every operation. *)
Theorem pool_stays_bounded_and_cleared (s : State) :
  pool_ok s ->
  forall (fuel : nat) (T : value) (f : mapfn) (this : value),
    pool_ok (snd (countChildren T s))
    /\ pool_ok (snd (forEachChildren T f this s))
    /\ pool_ok (snd (mapChildren fuel T f this s))
    /\ pool_ok (snd (toArray fuel T s)).
Proof.
  intros Hs fuel T f this.
  split; [now apply pool_ok_countChildren|].
  split; [now apply pool_ok_forEachChildren|].
  split; [now apply pool_ok_mapChildren | now apply pool_ok_toArray].
Qed.

(** ** More about the code *)

(** *** The key escapers *)

Lemma replaceChars_escape_cons (c : ascii) (s : string) :
  replaceChars escapeRegex escaperLookup (String c s)
  = if Ascii.eqb c "=" then
      String "=" (String "0" (replaceChars escapeRegex escaperLookup s))
    else if Ascii.eqb c ":" then
      String "=" (String "2" (replaceChars escapeRegex escaperLookup s))
    else String c (replaceChars escapeRegex escaperLookup s).
Proof.
  cbn [replaceChars]. unfold escapeRegex, escaperLookup.
  destruct (Ascii.eqb c "="); [reflexivity|].
  destruct (Ascii.eqb c ":"); reflexivity.
Qed.

Lemma replaceChars_escape_inj (a : string) :
  forall b,
    replaceChars escapeRegex escaperLookup a
    = replaceChars escapeRegex escaperLookup b ->
    a = b.
Proof.
  induction a as [|c a IH]; intros [|d b] H.
  - reflexivity.
  - rewrite replaceChars_escape_cons in H. cbn [replaceChars] in H.
    destruct (Ascii.eqb d "="); [discriminate|].
    destruct (Ascii.eqb d ":"); discriminate.
  - rewrite replaceChars_escape_cons in H. cbn [replaceChars] in H.
    destruct (Ascii.eqb c "="); [discriminate|].
    destruct (Ascii.eqb c ":"); discriminate.
  - rewrite !replaceChars_escape_cons in H.
    destruct (Ascii.eqb_spec c "=") as [->|Hc1];
      destruct (Ascii.eqb_spec d "=") as [->|Hd1].
    + injection H as H. now rewrite (IH b H).
    + destruct (Ascii.eqb_spec d ":") as [->|Hd2];
        [discriminate | injection H as H _; congruence].
    + destruct (Ascii.eqb_spec c ":") as [->|Hc2];
        [discriminate | injection H as H _; congruence].
    + destruct (Ascii.eqb_spec c ":") as [->|Hc2];
        destruct (Ascii.eqb_spec d ":") as [->|Hd2].
      * injection H as H. now rewrite (IH b H).
      * injection H as H _. congruence.
      * injection H as H _. congruence.
      * injection H as Hcd H. now rewrite Hcd, (IH b H).
Qed.

Lemma escape_inj (a b : string) : escape a = escape b -> a = b.
Proof.
  unfold escape. intros H. apply replaceChars_escape_inj.
  change (String "$" (replaceChars escapeRegex escaperLookup a)
          = String "$" (replaceChars escapeRegex escaperLookup b)) in H.
  now injection H.
Qed.

(** X1.  [escape] loses nothing: two keys with the same escaped form
    are the same key. *)
Theorem escape_injective (a b : string) : escape a = escape b -> a = b.
Proof. apply escape_inj. Qed.

Lemma list_ascii_of_string_append (a b : string) :
  list_ascii_of_string (a +:+ b)
  = list_ascii_of_string a ++ list_ascii_of_string b.
Proof.
  induction a as [|c a IH]; [reflexivity|].
  change (c :: list_ascii_of_string (a +:+ b)
          = c :: (list_ascii_of_string a ++ list_ascii_of_string b)).
  now rewrite IH.
Qed.

Lemma includes_char_In (c : ascii) (s : string) :
  includes (String c "") s -> In c (list_ascii_of_string s).
Proof.
  intros (u & v & ->). rewrite !list_ascii_of_string_append.
  apply in_or_app. right. apply in_or_app. left. now left.
Qed.

Lemma replaceChars_escape_no_colon (s : string) :
  ~ In ":"%char
      (list_ascii_of_string (replaceChars escapeRegex escaperLookup s)).
Proof.
  induction s as [|c s IH]; [intros []|].
  rewrite replaceChars_escape_cons.
  destruct (Ascii.eqb_spec c "=") as [->|_].
  { cbn [list_ascii_of_string In]. intros [H|[H|H]];
      [discriminate | discriminate | tauto]. }
  destruct (Ascii.eqb_spec c ":") as [->|Hc].
  { cbn [list_ascii_of_string In]. intros [H|[H|H]];
      [discriminate | discriminate | tauto]. }
  cbn [list_ascii_of_string In]. intros [H|H]; [congruence | tauto].
Qed.

(** X2.  An escaped key starts with [$] and holds no [:], the
    separator of path levels. *)
Theorem escape_has_no_subseparator (key : string) :
  (exists rest, escape key = String "$" rest)
  /\ ~ includes SUBSEPARATOR (escape key).
Proof.
  split; [eexists; reflexivity|].
  intros H. apply includes_char_In in H.
  change (In ":"%char
            ("$"%char :: list_ascii_of_string
                           (replaceChars escapeRegex escaperLookup key)))
    in H.
  destruct H as [H|H]; [discriminate|].
  now apply replaceChars_escape_no_colon in H.
Qed.

Lemma escapeUserProvidedKey_cons (c : ascii) (rest : string) :
  escapeUserProvidedKey (String c rest)
  = if Ascii.eqb c "/" then
      if startsWithSlash rest then String c (escapeUserProvidedKey rest)
      else String c (String "/" (escapeUserProvidedKey rest))
    else String c (escapeUserProvidedKey rest).
Proof.
  cbn [escapeUserProvidedKey]. destruct (Ascii.eqb c "/"); [|reflexivity].
  destruct rest as [|d rest]; [reflexivity|].
  destruct d as [[] [] [] [] [] [] [] []]; reflexivity.
Qed.

Lemma unescapeUserProvidedKey_cons (c : ascii) (rest : string) :
  unescapeUserProvidedKey (String c rest)
  = if Ascii.eqb c "/" then
      if startsWithSlash rest then String c (unescapeUserProvidedKey rest)
      else unescapeUserProvidedKey rest
    else String c (unescapeUserProvidedKey rest).
Proof.
  cbn [unescapeUserProvidedKey]. destruct (Ascii.eqb c "/"); [|reflexivity].
  destruct rest as [|d rest]; [reflexivity|].
  destruct d as [[] [] [] [] [] [] [] []]; reflexivity.
Qed.

Lemma escapeUserProvidedKey_head (text : string) :
  startsWithSlash (escapeUserProvidedKey text) = startsWithSlash text.
Proof.
  destruct text as [|c rest]; [reflexivity|].
  rewrite escapeUserProvidedKey_cons.
  destruct (Ascii.eqb c "/") eqn:Hc; [|cbn; now rewrite Hc].
  destruct (startsWithSlash rest); cbn; now rewrite Hc.
Qed.

(** X3.  [escapeUserProvidedKey] can be undone, so it loses nothing:
    dropping the last slash of every run of slashes gives the text
    back, and two texts with the same escaped form are the same. *)
Theorem escapeUserProvidedKey_round_trip :
  (forall text, unescapeUserProvidedKey (escapeUserProvidedKey text) = text)
  /\ (forall a b,
        escapeUserProvidedKey a = escapeUserProvidedKey b -> a = b).
Proof.
  assert (Hrt : forall text,
             unescapeUserProvidedKey (escapeUserProvidedKey text) = text).
  { induction text as [|c rest IH]; [reflexivity|].
    rewrite escapeUserProvidedKey_cons.
    destruct (Ascii.eqb c "/") eqn:Hc.
    - destruct (startsWithSlash rest) eqn:Hrest.
      + rewrite unescapeUserProvidedKey_cons, Hc,
          escapeUserProvidedKey_head, Hrest, IH. reflexivity.
      + rewrite unescapeUserProvidedKey_cons, Hc.
        cbn [startsWithSlash Ascii.eqb Bool.eqb].
        rewrite unescapeUserProvidedKey_cons.
        cbn [Ascii.eqb Bool.eqb].
        rewrite escapeUserProvidedKey_head, Hrest, IH. reflexivity.
    - rewrite unescapeUserProvidedKey_cons, Hc, IH. reflexivity. }
  split; [exact Hrt|].
  intros a b H. rewrite <- (Hrt a), <- (Hrt b). now rewrite H.
Qed.

Lemma escapeUserProvidedKey_no_slash (text : string) :
  ~ In "/"%char (list_ascii_of_string text) ->
  escapeUserProvidedKey text = text.
Proof.
  induction text as [|c rest IH]; [reflexivity|].
  cbn [list_ascii_of_string In]. intros H.
  rewrite escapeUserProvidedKey_cons.
  destruct (Ascii.eqb_spec c "/") as [->|_]; [tauto|].
  rewrite IH; [reflexivity | tauto].
Qed.

(** *** Component keys *)

Lemma nat_of_digit36 (d : nat) :
  d < 36 ->
  nat_of_ascii (digit36 d) = if Nat.ltb d 10 then 48 + d else 87 + d.
Proof.
  intros Hd. unfold digit36.
  destruct (Nat.ltb_spec d 10); apply nat_ascii_embedding; lia.
Qed.

Lemma digitValue36_digit36 (d : nat) : d < 36 -> digitValue36 (digit36 d) = d.
Proof.
  intros Hd. unfold digitValue36. rewrite (nat_of_digit36 d Hd).
  destruct (Nat.ltb_spec d 10) as [Hlt|Hge].
  - destruct (Nat.ltb_spec (48 + d) 58); lia.
  - destruct (Nat.ltb_spec (87 + d) 58); lia.
Qed.

Lemma toString36_aux_S (fuel n : nat) (acc : string) :
  toString36_aux (S fuel) n acc
  = if Nat.eqb (n / 36) 0 then String (digit36 (n mod 36)) acc
    else toString36_aux fuel (n / 36) (String (digit36 (n mod 36)) acc).
Proof. reflexivity. Qed.

Lemma parse36_aux_toString36_aux (fuel : nat) :
  forall n acc a,
    n <= fuel ->
    exists k,
      parse36_aux (toString36_aux (S fuel) n acc) a
      = parse36_aux acc (a * 36 ^ k + n).
Proof.
  induction fuel as [|fuel IH]; intros n acc a Hn.
  - assert (n = 0) as -> by lia. exists 1. rewrite toString36_aux_S.
    change (0 / 36) with 0. change (0 mod 36) with 0.
    cbn [Nat.eqb parse36_aux]. rewrite digitValue36_digit36 by lia.
    f_equal; cbn [Nat.pow]; lia.
  - rewrite toString36_aux_S.
    pose proof (Nat.div_mod_eq n 36) as Hdm.
    pose proof (Nat.mod_upper_bound n 36 ltac:(lia)) as Hmod.
    destruct (Nat.eqb_spec (n / 36) 0) as [Hz|Hnz].
    + exists 1. cbn [parse36_aux]. rewrite digitValue36_digit36 by exact Hmod.
      f_equal; cbn [Nat.pow]; lia.
    + assert (Hdiv : n / 36 <= fuel).
      { assert (n / 36 < n) by (apply Nat.div_lt; lia). lia. }
      destruct (IH (n / 36) (String (digit36 (n mod 36)) acc) a Hdiv)
        as (k & Hk).
      exists (S k). rewrite Hk. cbn [parse36_aux].
      rewrite digitValue36_digit36 by exact Hmod.
      f_equal; cbn [Nat.pow]; lia.
Qed.

Lemma parse36_toString36 (n : nat) : parse36 (toString36 n) = n.
Proof.
  unfold parse36, toString36.
  destruct (parse36_aux_toString36_aux n n "" 0 (le_n n)) as (k & ->).
  reflexivity.
Qed.

Lemma toString36_injective (i j : nat) : toString36 i = toString36 j -> i = j.
Proof.
  intros H. rewrite <- (parse36_toString36 i), <- (parse36_toString36 j).
  now rewrite H.
Qed.

Lemma toString36_aux_head (fuel : nat) :
  forall n acc,
    exists d rest,
      d < 36 /\ toString36_aux (S fuel) n acc = String (digit36 d) rest.
Proof.
  induction fuel as [|fuel IH]; intros n acc.
  - exists (n mod 36), acc. split; [apply Nat.mod_upper_bound; lia|].
    rewrite toString36_aux_S. destruct (Nat.eqb (n / 36) 0); reflexivity.
  - rewrite toString36_aux_S. destruct (Nat.eqb (n / 36) 0).
    + exists (n mod 36), acc. split; [apply Nat.mod_upper_bound; lia|].
      reflexivity.
    + apply IH.
Qed.

Lemma toString36_not_escaped (index : nat) (key : string) :
  toString36 index <> escape key.
Proof.
  unfold toString36.
  destruct (toString36_aux_head index index "") as (d & rest & Hd & ->).
  change (escape key)
    with (String "$" (replaceChars escapeRegex escaperLookup key)).
  intros [= H _].
  apply (f_equal nat_of_ascii) in H. rewrite (nat_of_digit36 d Hd) in H.
  change (nat_of_ascii "$") with 36 in H.
  destruct (Nat.ltb d 10); lia.
Qed.

Lemma getComponentKey_explicitKey (component : value) (index : nat) :
  getComponentKey component index
  = match explicitKey component with
    | Some k => escape k
    | None => toString36 index
    end.
Proof.
  unfold getComponentKey, explicitKey.
  destruct (typeof component), (isNullish component), (key_of component);
    reflexivity.
Qed.

Lemma getComponentKey_same (c1 c2 : value) (i j : nat) :
  getComponentKey c1 i = getComponentKey c2 j
  <-> match explicitKey c1, explicitKey c2 with
      | Some k1, Some k2 => k1 = k2
      | None, None => i = j
      | _, _ => False
      end.
Proof.
  rewrite !getComponentKey_explicitKey.
  destruct (explicitKey c1) as [k1|], (explicitKey c2) as [k2|].
  - split; [apply escape_inj | now intros ->].
  - split; [|tauto]. intros H. symmetry in H.
    now apply toString36_not_escaped in H.
  - split; [|tauto]. intros H. now apply toString36_not_escaped in H.
  - split; [apply toString36_injective | now intros ->].
Qed.

(** X4.  Two children get the same key segment exactly when both
    carry the same explicit key, or neither carries one and their
    indices are equal: an index never collides with an explicit key,
    nor two different indices or two different explicit keys with each
    other. *)
Theorem getComponentKey_collision (c1 c2 : value) (i j : nat) :
  getComponentKey c1 i = getComponentKey c2 j
  <-> match explicitKey c1, explicitKey c2 with
      | Some k1, Some k2 => k1 = k2
      | None, None => i = j
      | _, _ => False
      end.
Proof. apply getComponentKey_same. Qed.

(** *** What the operations return on a tree without invalid objects *)

Lemma visited_app (a b : list event) :
  firstInvalid a = None -> visited (a ++ b) = visited a ++ visited b.
Proof.
  induction a as [|[child k|isEntries|str keys] a IH]; cbn; intros H;
    [reflexivity | now rewrite IH | now apply IH | discriminate].
Qed.

Lemma firstInvalid_app_None (a b : list event) :
  firstInvalid (a ++ b) = None ->
  firstInvalid a = None /\ firstInvalid b = None.
Proof.
  rewrite firstInvalid_app. destruct (firstInvalid a); [discriminate|].
  now split.
Qed.

Lemma visited_length_events (v : value) :
  forall nameSoFar,
    firstInvalid (events v nameSoFar) = None ->
    length (visited (events v nameSoFar)) = countLeaves v.
Proof.
  induction v as
    [ | | b | str | n | e | e | items IH | isEntries items IH | str keys | id ]
    using value_ind'; intros nameSoFar; try reflexivity.
  - rewrite events_array. cbn [countLeaves].
    generalize 0, (nextNamePrefix nameSoFar).
    induction IH as [|x xs Hx _ IHxs]; intros i prefix Hinv; [reflexivity|].
    cbn [eventsOfItems map list_sum foldr] in *.
    apply firstInvalid_app_None in Hinv as [Hx' Hxs'].
    rewrite (visited_app _ _ Hx'), length_app, (Hx _ Hx'), (IHxs _ _ Hxs').
    reflexivity.
  - rewrite events_iterable. cbn [countLeaves firstInvalid visited].
    generalize 0, (nextNamePrefix nameSoFar).
    induction IH as [|x xs Hx _ IHxs]; intros i prefix Hinv; [reflexivity|].
    cbn [eventsOfItems map list_sum foldr] in *.
    apply firstInvalid_app_None in Hinv as [Hx' Hxs'].
    rewrite (visited_app _ _ Hx'), length_app, (Hx _ Hx'), (IHxs _ _ Hxs').
    reflexivity.
Qed.

Lemma firstInvalid_traversed (T : value) :
  firstObject T = None -> firstInvalid (traversed T) = None.
Proof.
  intros H. unfold traversed. destruct (isNullish T); [reflexivity|].
  now rewrite firstInvalid_events.
Qed.

Lemma countChildren_clean (T : value) (s : State) :
  firstObject T = None ->
  fst (countChildren T s)
  = Return (if isNullish T then 0 else countLeaves T).
Proof.
  intros Hclean. destruct (countChildren_spec T s) as (s' & ->).
  cbn [fst]. unfold traversalOutcome.
  rewrite (firstInvalid_traversed T Hclean). f_equal.
  unfold traversed. destruct (isNullish T) eqn:Hnn; [reflexivity|].
  apply visited_length_events. now rewrite firstInvalid_events.
Qed.

(** X5.  On a tree without invalid objects [countChildren] returns
    the number of its leaves, [null], [undefined] and boolean leaves
    counted, functions not; a [null] or [undefined] tree counts 0. *)
Theorem countChildren_countLeaves (T : value) (s : State) :
  firstObject T = None ->
  fst (countChildren T s)
  = Return (if isNullish T then 0 else countLeaves T).
Proof. apply countChildren_clean. Qed.

Lemma emitLeaves_app (p : option string) (a b : list (value * string)) :
  emitLeaves p (a ++ b) = emitLeaves p a ++ emitLeaves p b.
Proof. unfold emitLeaves. apply flat_map_app. Qed.

Lemma eraseKey_emitLeaves_events (p : option string) (v : value) :
  forall nameSoFar,
    firstInvalid (events v nameSoFar) = None ->
    map eraseKey (emitLeaves p (visited (events v nameSoFar)))
    = map eraseKey (solidLeaves v).
Proof.
  induction v as
    [ | | b | str | n | e | e | items IH | isEntries items IH | str keys | id ]
    using value_ind'; intros nameSoFar; try reflexivity.
  - rewrite events_array. cbn [solidLeaves].
    generalize 0, (nextNamePrefix nameSoFar).
    induction IH as [|x xs Hx _ IHxs]; intros i prefix Hinv; [reflexivity|].
    cbn [eventsOfItems flat_map] in *.
    apply firstInvalid_app_None in Hinv as [Hx' Hxs'].
    rewrite (visited_app _ _ Hx'), emitLeaves_app, !map_app,
      (Hx _ Hx'), (IHxs _ _ Hxs').
    reflexivity.
  - rewrite events_iterable. cbn [solidLeaves firstInvalid visited].
    generalize 0, (nextNamePrefix nameSoFar).
    induction IH as [|x xs Hx _ IHxs]; intros i prefix Hinv; [reflexivity|].
    cbn [eventsOfItems flat_map] in *.
    apply firstInvalid_app_None in Hinv as [Hx' Hxs'].
    rewrite (visited_app _ _ Hx'), emitLeaves_app, !map_app,
      (Hx _ Hx'), (IHxs _ _ Hxs').
    reflexivity.
Qed.

Lemma toArray_clean (fuel : nat) (T : value) (s : State) :
  firstObject T = None ->
  eraseKeys (fst (toArray (S fuel) T s))
  = Return (VArray (map eraseKey (solidLeaves T))).
Proof.
  intros Hclean. destruct (toArray_spec fuel T s) as (s' & ->).
  cbn [fst]. unfold traversalOutcome.
  rewrite (firstInvalid_traversed T Hclean). cbn [eraseKeys]. do 2 f_equal.
  unfold traversed. destruct (isNullish T) eqn:Hnn.
  - destruct T; try discriminate; reflexivity.
  - apply eraseKey_emitLeaves_events. now rewrite firstInvalid_events.
Qed.

(** X6.  On a tree without invalid objects [toArray] returns its
    leaves that are not [null], [undefined] or a boolean, depth first
    and left to right, whatever the nesting of arrays and iterables;
    an element comes back as a clone that differs in its key only. *)
Theorem toArray_solidLeaves (fuel : nat) (T : value) (s : State) :
  firstObject T = None ->
  eraseKeys (fst (toArray (S fuel) T s))
  = Return (VArray (map eraseKey (solidLeaves T))).
Proof. apply toArray_clean. Qed.


(** *** Visitors *)

Lemma mapModel_solid_visitor (p : option string) (f : mapfn) (this : value)
  (vs : list (value * string)) :
  (forall child index,
      isNullish (f this child index) = false
      /\ isArray (f this child index) = false) ->
  forall index,
    length (fst (mapModel p f this index vs)) = length vs
    /\ snd (mapModel p f this index vs) = None.
Proof.
  intros Hf. induction vs as [|[child k] vs IH]; intros index;
    [now split|].
  cbn [mapModel]. destruct (Hf child index) as [Hnn Harr]. rewrite Harr.
  destruct (IH (S index)) as [Hlen Hnone].
  destruct (mapModel p f this (S index) vs) as [out o].
  cbn [fst snd] in *. split; [|exact Hnone].
  rewrite length_app, Hlen. unfold emitOne. rewrite Hnn.
  destruct (isValidElement (f this child index)); reflexivity.
Qed.

(** X8.  When the visitor never returns [null], [undefined] or an
    array, [mapChildren] of a tree that is not [null] or [undefined]
    returns exactly as many items as [countChildren] counts, and fails
    where [countChildren] fails, with the same error. *)
Theorem mapChildren_length_countChildren (fuel : nat) (T : value)
  (f : mapfn) (this : value) (s : State) :
  isNullish T = false ->
  (forall child index,
      isNullish (f this child index) = false
      /\ isArray (f this child index) = false) ->
  match fst (countChildren T s),
        fst (mapChildren (S (S fuel)) T f this s) with
  | Return n, Return (VArray items) => n = length items
  | Throw e, Throw e' => e = e'
  | _, _ => False
  end.
Proof.
  intros Hnn Hf.
  destruct (countChildren_spec T s) as (s1 & ->).
  destruct (mapChildren_spec fuel T f this s Hnn) as (s2 & ->).
  destruct (mapModel_solid_visitor (Some "") f this
              (visited (traversed T)) Hf 0) as [Hlen Hnone].
  cbn [fst]. rewrite Hnone. unfold traversalOutcome.
  destruct (firstInvalid (traversed T)); [reflexivity | now rewrite Hlen].
Qed.



Lemma traversed_pair (child : value) :
  isLeaf child = true ->
  traversed (VArray [child; child])
  = [Visit child (SEPARATOR +:+ getComponentKey child 0);
     Visit child (SEPARATOR +:+ getComponentKey child 1)].
Proof.
  intros Hleaf. unfold traversed. cbn [isNullish]. rewrite events_array.
  cbn [eventsOfItems]. rewrite !(events_of_leaf _ _ Hleaf). reflexivity.
Qed.

Lemma mapModel_twiceVisitor (p : option string) (this : value)
  (vs : list (value * string)) :
  Forall (fun v => isLeaf (fst v) = true) vs ->
  forall index,
    snd (mapModel p twiceVisitor this index vs) = None
    /\ map eraseKey (fst (mapModel p twiceVisitor this index vs))
       = flat_map (fun v => [v; v]) (map eraseKey (emitLeaves p vs)).
Proof.
  unfold twiceVisitor.
  induction 1 as [|[child k] vs Hv _ IH]; intros index; [now split|].
  cbn [mapModel isArray]. cbn in Hv.
  rewrite (traversed_pair _ Hv).
  cbn [firstInvalid visited].
  destruct (IH (S index)) as [Hnone Hout].
  destruct (mapModel p _ this (S index) vs) as [out o].
  cbn [fst snd] in *. split; [exact Hnone|].
  rewrite map_app, Hout.
  unfold emitLeaves. cbn [flat_map fst snd].
  rewrite app_nil_r, !map_app, flat_map_app. f_equal.
  destruct child; try discriminate; reflexivity.
Qed.

(** X10.  Mapping with [x => [x, x]] returns every leaf that mapping
    with the identity returns, twice in a row, in the same order (the
    clones compared without their keys), and fails on the same trees
    with the same error. *)
Theorem mapChildren_twice (fuel : nat) (T this : value) (s : State) :
  match fst (mapChildren (S (S fuel)) T twiceVisitor this s),
        fst (mapChildren (S (S fuel)) T (fun _ x _ => x) this s) with
  | Return (VArray twice), Return (VArray once) =>
      map eraseKey twice = flat_map (fun v => [v; v]) (map eraseKey once)
  | Return a, Return b => isNullish T = true /\ a = T /\ b = T
  | Throw e, Throw e' => e = e'
  | _, _ => False
  end.
Proof.
  destruct (isNullish T) eqn:Hnn.
  { rewrite !mapChildren_nullish by exact Hnn. cbn [fst].
    destruct T; try discriminate; now repeat split. }
  destruct (mapChildren_spec fuel T twiceVisitor this s Hnn) as (s1 & ->).
  destruct (mapChildren_spec fuel T (fun _ x _ => x) this s Hnn)
    as (s2 & ->).
  rewrite mapModel_identity by (apply visited_leaf, traversed_leaf).
  destruct (mapModel_twiceVisitor (Some "") this (visited (traversed T))
              (visited_leaf _ (traversed_leaf T)) 0) as [Hnone Hout].
  cbn [fst snd]. rewrite Hnone. unfold traversalOutcome.
  destruct (firstInvalid (traversed T)); [reflexivity | exact Hout].
Qed.

(** *** [toArray] composed with the other operations *)

Lemma emitLeaves_solid (p : option string) (vs : list (value * string)) :
  Forall (fun v => isLeaf (fst v) = true) vs ->
  Forall (fun v => solidLeaf v = true) (emitLeaves p vs).
Proof.
  induction 1 as [|[child k] vs Hv _ IH]; [constructor|].
  unfold emitLeaves in *. cbn [flat_map fst snd]. apply Forall_app.
  split; [|exact IH].
  cbn in Hv. destruct child; try discriminate; repeat constructor.
Qed.

Lemma solid_items (items : list value) :
  Forall (fun v => solidLeaf v = true) items ->
  firstObject (VArray items) = None
  /\ countLeaves (VArray items) = length items
  /\ solidLeaves (VArray items) = items.
Proof.
  induction 1 as [|x xs Hx _ (IH1 & IH2 & IH3)]; [now repeat split|].
  change (firstObject (VArray (x :: xs)))
    with (match firstObject x with
          | Some o => Some o
          | None => firstObject (VArray xs)
          end).
  change (countLeaves (VArray (x :: xs)))
    with (countLeaves x + countLeaves (VArray xs)).
  change (solidLeaves (VArray (x :: xs)))
    with (solidLeaves x ++ solidLeaves (VArray xs)).
  rewrite IH1, IH2, IH3.
  destruct x; try discriminate; now repeat split.
Qed.

(** X11.  What [toArray] returns holds no [null] and no nesting:
    [countChildren] of it is its length, and [toArray] of it returns
    the same items again (the clones compared without their keys). *)
Theorem toArray_then_count_and_toArray (fuel : nat) (T : value)
  (s s' : State) (items : list value) :
  toArray (S fuel) T s = (Return (VArray items), s') ->
  (forall s2, fst (countChildren (VArray items) s2) = Return (length items))
  /\ (forall fuel2 s2,
        eraseKeys (fst (toArray (S fuel2) (VArray items) s2))
        = Return (VArray (map eraseKey items))).
Proof.
  intros Hrun.
  destruct (toArray_spec fuel T s) as (s1 & Hspec).
  rewrite Hspec in Hrun. unfold traversalOutcome in Hrun.
  destruct (firstInvalid (traversed T)); [discriminate|].
  injection Hrun as Hitems _.
  assert (Hsolid : Forall (fun v => solidLeaf v = true) items).
  { rewrite <- Hitems. apply emitLeaves_solid, visited_leaf, traversed_leaf. }
  destruct (solid_items items Hsolid) as (Hclean & Hcount & Hleaves).
  split.
  - intros s2. rewrite (countChildren_clean _ s2 Hclean).
    cbn [isNullish]. now rewrite Hcount.
  - intros fuel2 s2. rewrite (toArray_clean fuel2 _ s2 Hclean).
    now rewrite Hleaves.
Qed.

(** *** What an operation leaves alone

    A relation between the store before and after that every
    primitive respects is respected by every operation. *)

Section Frame.

Variable R : State -> State -> Prop.
Variable okArray : option nat -> Prop.

Hypothesis R_refl : forall s, R s s.
Hypothesis R_trans : forall s1 s2 s3, R s1 s2 -> R s2 s3 -> R s1 s3.
Hypothesis R_warn : forall isEntries s, R s (snd (warnAboutMaps isEntries s)).
Hypothesis R_push :
  forall array v s, okArray array -> R s (snd (push array v s)).
Hypothesis R_get :
  forall r kp fn this s, R s (snd (getPooledTraverseContext r kp fn this s)).
Hypothesis R_release :
  forall c s, R s (snd (releaseTraverseContext c s)).

Lemma frame_bind {A B} (Q : A -> Prop) (m : M A) (k : A -> M B) (s : State) :
  R s (snd (m s)) ->
  (forall a, fst (m s) = Return a -> Q a) ->
  (forall a s', Q a -> R s' (snd (k a s'))) ->
  R s (snd (bind m k s)).
Proof.
  intros Hm HQ Hk. unfold bind.
  destruct (m s) as [[a| |] s']; cbn [fst snd] in *; try exact Hm.
  apply (R_trans _ _ _ Hm). apply Hk, HQ. reflexivity.
Qed.

Lemma frame_runEvents {C} (Pc : C -> Prop)
  (callback : C -> value -> string -> M C) :
  (forall ctx child k s,
      isLeaf child = true -> Pc ctx ->
      R s (snd (callback ctx child k s))
      /\ (forall ctx', fst (callback ctx child k s) = Return ctx' -> Pc ctx')) ->
  forall evs,
    Forall leafEvent evs ->
    forall acc s,
      Pc (snd acc) ->
      R s (snd (runEvents callback evs acc s))
      /\ (forall acc',
            fst (runEvents callback evs acc s) = Return acc' -> Pc (snd acc')).
Proof.
  intros Hcb.
  induction 1 as [|[child k|isEntries|str keys] evs Hev _ IH];
    intros acc s Hacc.
  - split; [apply R_refl|]. cbn. now intros acc' [= <-].
  - cbn [runEvents]. cbn in Hev.
    destruct (Hcb (snd acc) child k s Hev Hacc) as [HR HP].
    unfold bind.
    destruct (callback (snd acc) child k s) as [[ctx'| |] s'];
      cbn [fst snd] in *; try (split; [exact HR | discriminate]).
    destruct (IH (S (fst acc), ctx') s' (HP ctx' eq_refl)) as [HR' HP'].
    split; [now apply (R_trans _ _ _ HR) | exact HP'].
  - cbn [runEvents]. unfold bind.
    pose proof (R_warn isEntries s) as HR.
    destruct (warnAboutMaps isEntries s) as [[[]| |] s'];
      cbn [fst snd] in *; try (split; [exact HR | discriminate]).
    destruct (IH acc s' Hacc) as [HR' HP'].
    split; [now apply (R_trans _ _ _ HR) | exact HP'].
  - rewrite runEvents_invalid. split; [apply R_refl | discriminate].
Qed.

Lemma frame_traverseAllChildren {C} (Pc : C -> Prop)
  (callback : C -> value -> string -> M C) :
  (forall ctx child k s,
      isLeaf child = true -> Pc ctx ->
      R s (snd (callback ctx child k s))
      /\ (forall ctx', fst (callback ctx child k s) = Return ctx' -> Pc ctx')) ->
  forall children ctx s,
    Pc ctx ->
    R s (snd (traverseAllChildren callback children ctx s)).
Proof.
  intros Hcb children ctx s Hctx. rewrite traverseAllChildren_events.
  apply (frame_runEvents Pc callback Hcb _ (traversed_leaf children)
           (0, ctx) s Hctx).
Qed.

Lemma frame_mapSingle
  (mi : value -> option nat -> option string -> mapfn -> value -> M unit) :
  (forall children array prefix f this s,
      okArray array -> R s (snd (mi children array prefix f this s))) ->
  forall ctx child k s,
    okArray (result ctx) ->
    R s (snd (mapSingleChildIntoContext mi ctx child k s))
    /\ (forall ctx',
          fst (mapSingleChildIntoContext mi ctx child k s) = Return ctx' ->
          okArray (result ctx')).
Proof.
  intros Hmi ctx child k s Hok. unfold mapSingleChildIntoContext.
  destruct (func ctx) as [f|]; [|split; [apply R_refl | discriminate]].
  assert (Hret : forall (m : M unit) bk,
             result bk = result ctx ->
             R s (snd (m s)) ->
             R s (snd (bind m (fun _ => ret bk) s))
             /\ (forall ctx',
                   fst (bind m (fun _ => ret bk) s) = Return ctx' ->
                   okArray (result ctx'))).
  { intros m bk Hbk Hm. unfold bind, ret.
    destruct (m s) as [[[]| |] s']; cbn [fst snd] in *;
      (split; [exact Hm|]); try discriminate.
    intros ctx' [= <-]. now rewrite Hbk. }
  destruct (f (context ctx) child (count ctx));
    cbn [isNullish negb];
    try (split; [apply R_refl | intros ctx' [= <-]; exact Hok]);
    try (apply Hret; [reflexivity | now apply R_push]).
  apply Hret; [reflexivity | now apply Hmi].
Qed.

Lemma frame_mapInto (fuel : nat) :
  forall children array prefix f this s,
    okArray array ->
    R s (snd (mapIntoWithKeyPrefixInternal fuel children array prefix
                f this s)).
Proof.
  induction fuel as [|fuel IH]; intros children array prefix f this s Hok;
    [apply R_refl|].
  cbn [mapIntoWithKeyPrefixInternal].
  apply (frame_bind (fun ctx => okArray (result ctx))).
  - apply R_get.
  - unfold getPooledTraverseContext.
    destruct (pop (traverseContextPool s)) as [[c rest]|];
      intros a [= <-]; exact Hok.
  - intros ctx s1 Hctx.
    apply (frame_bind (fun _ => True)); [|trivial|].
    + apply (frame_traverseAllChildren (fun c => okArray (result c)));
        [|exact Hctx].
      intros c child k s0 _ Hc. now apply frame_mapSingle.
    + intros [n ctx'] s2 _. apply R_release.
Qed.

Lemma frame_countChildren (T : value) (s : State) :
  R s (snd (countChildren T s)).
Proof.
  unfold countChildren.
  apply (frame_bind (fun _ => True)); [|trivial|].
  - apply (frame_traverseAllChildren (fun _ => True)); [|exact I].
    intros ctx child k s0 _ _. split; [apply R_refl | trivial].
  - intros [n []] s1 _. apply R_refl.
Qed.

Lemma frame_forEachChildren (T : value) (f : mapfn) (this : value)
  (s : State) :
  R s (snd (forEachChildren T f this s)).
Proof.
  unfold forEachChildren. destruct (isNullish T); [apply R_refl|].
  apply (frame_bind (fun _ => True)); [apply R_get | trivial |].
  intros ctx s1 _.
  apply (frame_bind (fun _ => True)); [|trivial|].
  - apply (frame_traverseAllChildren (fun _ => True)); [|exact I].
    intros c child k s0 _ _. unfold forEachSingleChild.
    destruct (func c); (split; [apply R_refl | trivial]).
  - intros [n ctx'] s2 _.
    apply (frame_bind (fun _ => True)); [apply R_release | trivial |].
    intros _ s3 _. apply R_refl.
Qed.

Hypothesis R_new : forall s, R s (snd (newArray s)).
Hypothesis ok_new : forall s l, fst (newArray s) = Return l -> okArray (Some l).

Lemma frame_readArray (l : nat) (s : State) : R s (snd (readArray l s)).
Proof. unfold readArray. destruct (arrays s !! l); apply R_refl. Qed.

Lemma frame_toArray (fuel : nat) (T : value) (s : State) :
  R s (snd (toArray fuel T s)).
Proof.
  unfold toArray.
  apply (frame_bind (fun l => okArray (Some l)));
    [apply R_new | apply ok_new |].
  intros l s1 Hl.
  apply (frame_bind (fun _ => True)); [now apply frame_mapInto | trivial |].
  intros _ s2 _.
  apply (frame_bind (fun _ => True)); [apply frame_readArray | trivial |].
  intros items s3 _. apply R_refl.
Qed.

Lemma frame_mapChildren (fuel : nat) (T : value) (f : mapfn) (this : value)
  (s : State) :
  R s (snd (mapChildren fuel T f this s)).
Proof.
  unfold mapChildren. destruct (isNullish T); [apply R_refl|].
  apply (frame_bind (fun l => okArray (Some l)));
    [apply R_new | apply ok_new |].
  intros l s1 Hl.
  apply (frame_bind (fun _ => True)); [now apply frame_mapInto | trivial |].
  intros _ s2 _.
  apply (frame_bind (fun _ => True)); [apply frame_readArray | trivial |].
  intros items s3 _. apply R_refl.
Qed.

End Frame.

(** *** Warnings *)

Lemma warnsAtMostOnce_refl (s : State) : warnsAtMostOnce s s.
Proof. left. now split. Qed.

Lemma warnsAtMostOnce_trans (s1 s2 s3 : State) :
  warnsAtMostOnce s1 s2 -> warnsAtMostOnce s2 s3 -> warnsAtMostOnce s1 s3.
Proof.
  intros [[Hw1 Hd1]|(HD & Hd1 & Hw1 & Hd1')]
    [[Hw2 Hd2]|(HD2 & Hd2 & Hw2 & Hd2')].
  - left. split; congruence.
  - right. repeat split; congruence.
  - right. repeat split; congruence.
  - congruence.
Qed.

Lemma warnsAtMostOnce_same (s s' : State) :
  warnings s' = warnings s ->
  didWarnAboutMaps s' = didWarnAboutMaps s ->
  warnsAtMostOnce s s'.
Proof. intros. left. now split. Qed.

Lemma warnsAtMostOnce_warnAboutMaps (isEntries : bool) (s : State) :
  warnsAtMostOnce s (snd (warnAboutMaps isEntries s)).
Proof.
  unfold warnAboutMaps, warning, ret.
  destruct __DEV__ eqn:HD; [|apply warnsAtMostOnce_refl].
  destruct isEntries; [|apply warnsAtMostOnce_refl].
  destruct (didWarnAboutMaps s) eqn:Hd; cbn [snd].
  - left. cbn. now split.
  - right. cbn. now repeat split.
Qed.

Lemma warnsAtMostOnce_push (array : option nat) (v : value) (s : State) :
  warnsAtMostOnce s (snd (push array v s)).
Proof.
  unfold push. destruct array as [l|]; [|apply warnsAtMostOnce_refl].
  destruct (arrays s !! l); apply warnsAtMostOnce_same; reflexivity.
Qed.

Lemma warnsAtMostOnce_get (r : option nat) (kp : option string)
  (fn : option mapfn) (this : value) (s : State) :
  warnsAtMostOnce s (snd (getPooledTraverseContext r kp fn this s)).
Proof.
  unfold getPooledTraverseContext.
  destruct (pop (traverseContextPool s)) as [[c rest]|];
    apply warnsAtMostOnce_same; reflexivity.
Qed.

Lemma warnsAtMostOnce_release (c : TraverseContext) (s : State) :
  warnsAtMostOnce s (snd (releaseTraverseContext c s)).
Proof.
  unfold releaseTraverseContext.
  destruct (Nat.ltb _ _); apply warnsAtMostOnce_same; reflexivity.
Qed.

Ltac warn_frame :=
  first
    [ exact warnsAtMostOnce_refl
    | exact warnsAtMostOnce_trans
    | exact warnsAtMostOnce_warnAboutMaps
    | exact warnsAtMostOnce_get
    | exact warnsAtMostOnce_release
    | intros; apply warnsAtMostOnce_push
    | intros; apply warnsAtMostOnce_same; reflexivity
    | intros; exact I ].

(** X12.  An operation adds the Maps warning at most once, only in a
    development build and only when no operation has warned before;
    otherwise the warnings and the warned-once flag stay as they
    were. *)
Theorem operations_warn_at_most_once (fuel : nat) (T : value) (f : mapfn)
  (this : value) (s : State) :
  warnsAtMostOnce s (snd (countChildren T s))
  /\ warnsAtMostOnce s (snd (forEachChildren T f this s))
  /\ warnsAtMostOnce s (snd (mapChildren fuel T f this s))
  /\ warnsAtMostOnce s (snd (toArray fuel T s)).
Proof.
  split; [|split; [|split]].
  - apply (frame_countChildren warnsAtMostOnce); warn_frame.
  - apply (frame_forEachChildren warnsAtMostOnce); warn_frame.
  - apply (frame_mapChildren warnsAtMostOnce (fun _ => True)); warn_frame.
  - apply (frame_toArray warnsAtMostOnce (fun _ => True)); warn_frame.
Qed.


(** *** Arrays *)

Lemma keepsArrays_refl (n : nat) (s : State) : keepsArrays n s s.
Proof. split; [reflexivity | now intros l _]. Qed.

Lemma keepsArrays_trans (n : nat) (s1 s2 s3 : State) :
  keepsArrays n s1 s2 -> keepsArrays n s2 s3 -> keepsArrays n s1 s3.
Proof.
  intros [Hl1 H1] [Hl2 H2]. split; [congruence|].
  intros l Hl. now rewrite (H2 l Hl), (H1 l Hl).
Qed.

Lemma keepsArrays_same (n : nat) (s s' : State) :
  arrays s' = arrays s -> keepsArrays n s s'.
Proof. intros H. split; [now rewrite H | intros l _; now rewrite H]. Qed.

Lemma keepsArrays_warnAboutMaps (n : nat) (isEntries : bool) (s : State) :
  keepsArrays n s (snd (warnAboutMaps isEntries s)).
Proof.
  destruct (warnAboutMaps_returns isEntries s) as (s' & -> & Harr & _).
  now apply keepsArrays_same.
Qed.

Lemma keepsArrays_push (n : nat) (array : option nat) (v : value)
  (s : State) :
  (forall l, array = Some l -> n <= l) ->
  keepsArrays n s (snd (push array v s)).
Proof.
  intros Hok. unfold push. destruct array as [l|]; [|apply keepsArrays_refl].
  destruct (arrays s !! l) as [xs|]; [|apply keepsArrays_refl].
  split; cbn; [apply length_insert|].
  intros l' Hl'. cbn. apply list_lookup_insert_ne.
  specialize (Hok l eq_refl). lia.
Qed.

Lemma keepsArrays_get (n : nat) (r : option nat) (kp : option string)
  (fn : option mapfn) (this : value) (s : State) :
  keepsArrays n s (snd (getPooledTraverseContext r kp fn this s)).
Proof.
  destruct (getPooledTraverseContext_returns r kp fn this s)
    as (s' & -> & Harr).
  now apply keepsArrays_same.
Qed.

Lemma keepsArrays_release (n : nat) (c : TraverseContext) (s : State) :
  keepsArrays n s (snd (releaseTraverseContext c s)).
Proof.
  destruct (releaseTraverseContext_returns c s) as (s' & -> & Harr).
  now apply keepsArrays_same.
Qed.

Lemma keepsArrays_mapInto (n fuel : nat) (children : value) (l : nat)
  (prefix : option string) (f : mapfn) (this : value) (s : State) :
  n <= l ->
  keepsArrays n s
    (snd (mapIntoWithKeyPrefixInternal fuel children (Some l) prefix f this
            s)).
Proof.
  intros Hl.
  apply (frame_mapInto (keepsArrays n) (fun a => forall l, a = Some l -> n <= l)
           (keepsArrays_refl n) (keepsArrays_trans n)
           (keepsArrays_warnAboutMaps n) (keepsArrays_push n)
           (keepsArrays_get n) (keepsArrays_release n)).
  now intros l' [= <-].
Qed.

Lemma one_more_item {A} (xs xs' : list A) :
  length xs' = S (length xs) ->
  (forall l, l < length xs -> xs' !! l = xs !! l) ->
  exists out, xs' = xs ++ [out].
Proof.
  revert xs'. induction xs as [|x xs IH]; intros [|x' xs'] Hlen Hsame;
    try discriminate.
  - destruct xs'; [|discriminate]. now exists x'.
  - destruct (IH xs') as (out & ->).
    + cbn in Hlen. lia.
    + intros l Hl. apply (Hsame (S l)). cbn. lia.
    + exists out. specialize (Hsame 0 ltac:(cbn; lia)).
      cbn in Hsame. now injection Hsame as ->.
Qed.

Lemma allocating_call (fuel : nat) (T : value) (f : mapfn) (this : value)
  (s : State) :
  let call :=
    (let! result := newArray in
     mapIntoWithKeyPrefixInternal fuel T (Some result) None f this ;;
     let! items := readArray result in
     ret (VArray items)) in
  exists out,
    arrays (snd (call s)) = arrays s ++ [out]
    /\ (forall items, fst (call s) = Return (VArray items) -> items = out).
Proof.
  intros call. subst call. unfold bind, newArray, readArray, ret.
  remember {| traverseContextPool := traverseContextPool s;
              arrays := arrays s ++ [[]];
              didWarnAboutMaps := didWarnAboutMaps s;
              warnings := warnings s |} as s1 eqn:Hs1.
  remember (length (arrays s)) as l eqn:Hl.
  destruct (keepsArrays_mapInto l fuel T l None f this s1 (le_n l))
    as [Hlen Hsame].
  destruct (one_more_item (arrays s)
              (arrays (snd (mapIntoWithKeyPrefixInternal fuel T (Some l)
                              None f this s1))))
    as (out & Hout).
  { rewrite Hlen, Hs1. cbn. rewrite length_app. cbn. lia. }
  { intros l' Hl'. rewrite (Hsame l' (eq_ind_r (fun n => l' < n) Hl' Hl)).
    rewrite Hs1. cbn. now apply lookup_app_l. }
  exists out.
  destruct (mapIntoWithKeyPrefixInternal fuel T (Some l) None f this s1)
    as [[[]| |] s2]; cbn [fst snd] in *;
    try (split; [exact Hout | discriminate]).
  rewrite Hout, lookup_app_r by lia.
  rewrite Hl, Nat.sub_diag. cbn.
  split; [exact Hout | intros items H; now injection H].
Qed.

(** X13.  [toArray] and, for a tree that is not [null] or
    [undefined], [mapChildren] add one array to the store, the one
    they return, and leave every array that was there as it was;
    [countChildren] and [forEachChildren] leave the arrays alone. *)
Theorem operations_keep_earlier_arrays (fuel : nat) (T : value) (f : mapfn)
  (this : value) (s : State) :
  (exists out,
      arrays (snd (toArray fuel T s)) = arrays s ++ [out]
      /\ (forall items,
            fst (toArray fuel T s) = Return (VArray items) -> items = out))
  /\ (exists out,
        arrays (snd (mapChildren fuel T f this s))
        = (if isNullish T then arrays s else arrays s ++ [out])
        /\ (forall items,
              fst (mapChildren fuel T f this s) = Return (VArray items) ->
              items = out))
  /\ arrays (snd (countChildren T s)) = arrays s
  /\ arrays (snd (forEachChildren T f this s)) = arrays s.
Proof.
  split; [|split; [|split]].
  - apply (allocating_call fuel T (fun _ child _ => child) VUndefined s).
  - unfold mapChildren. destruct (isNullish T) eqn:Hnn.
    + exists []. split; [reflexivity|].
      intros items H. cbn in H. injection H as H. subst T.
      discriminate Hnn.
    + apply (allocating_call fuel T f this s).
  - apply (frame_countChildren (fun s s' => arrays s' = arrays s)).
    + reflexivity.
    + intros s1 s2 s3 H1 H2. congruence.
    + intros isEntries s0.
      destruct (warnAboutMaps_returns isEntries s0) as (s' & -> & Harr & _).
      exact Harr.
  - apply (frame_forEachChildren (fun s s' => arrays s' = arrays s)).
    + reflexivity.
    + intros s1 s2 s3 H1 H2. congruence.
    + intros isEntries s0.
      destruct (warnAboutMaps_returns isEntries s0) as (s' & -> & Harr & _).
      exact Harr.
    + intros r kp fn this0 s0.
      destruct (getPooledTraverseContext_returns r kp fn this0 s0)
        as (s' & -> & Harr).
      exact Harr.
    + intros c s0.
      destruct (releaseTraverseContext_returns c s0) as (s' & -> & Harr).
      exact Harr.
Qed.

(** *** Taking a context and giving it back *)














(** *** Names are unique *)

Lemma toString36_aux_noColon (fuel : nat) :
  forall n acc, noColon acc -> noColon (toString36_aux fuel n acc).
Proof.
  induction fuel as [|fuel IH]; intros n acc Hacc; [exact Hacc|].
  rewrite toString36_aux_S.
  assert (Hacc' : noColon (String (digit36 (n mod 36)) acc)).
  { unfold noColon in *. cbn [list_ascii_of_string In].
    intros [H|H]; [|tauto].
    apply (f_equal nat_of_ascii) in H.
    rewrite nat_of_digit36 in H by (apply Nat.mod_upper_bound; lia).
    change (nat_of_ascii ":") with 58 in H.
    destruct (Nat.ltb_spec (n mod 36) 10); lia. }
  destruct (Nat.eqb (n / 36) 0); [exact Hacc' | now apply IH].
Qed.

Lemma getComponentKey_noColon (c : value) (i : nat) :
  noColon (getComponentKey c i).
Proof.
  rewrite getComponentKey_explicitKey. destruct (explicitKey c) as [k|].
  - unfold noColon, escape.
    change (~ In ":"%char
              ("$"%char :: list_ascii_of_string
                             (replaceChars escapeRegex escaperLookup k))).
    intros [H|H]; [discriminate|].
    now apply replaceChars_escape_no_colon in H.
  - apply toString36_aux_noColon. intros [].
Qed.

Lemma append_cons (c : ascii) (a b : string) :
  String c a +:+ b = String c (a +:+ b).
Proof. reflexivity. Qed.

Lemma append_inj_l (p a b : string) : p +:+ a = p +:+ b -> a = b.
Proof.
  induction p as [|c p IH]; [trivial|].
  rewrite !append_cons. intros [= H]. now apply IH.
Qed.

Lemma segment_split (a : string) :
  forall b ra rb,
    noColon a -> noColon b -> levelTail ra -> levelTail rb ->
    a +:+ ra = b +:+ rb -> a = b.
Proof.
  unfold noColon.
  induction a as [|c a IH]; intros [|d b] ra rb Ha Hb Hra Hrb H.
  - reflexivity.
  - exfalso. rewrite append_cons in H. change ("" +:+ ra) with ra in H.
    destruct Hra as [->|(r' & ->)]; [discriminate|].
    injection H as <- _. apply Hb. now left.
  - exfalso. rewrite append_cons in H. change ("" +:+ rb) with rb in H.
    destruct Hrb as [->|(r' & ->)]; [discriminate|].
    injection H as -> _. apply Ha. now left.
  - rewrite !append_cons in H. injection H as -> H. f_equal.
    apply (IH b ra rb); auto.
    + intros Hin. apply Ha. now right.
    + intros Hin. apply Hb. now right.
Qed.

Lemma names_app (a b : list event) : names (a ++ b) = names a ++ names b.
Proof.
  induction a as [|[child k|isEntries|str keys] a IH]; cbn;
    now rewrite ?IH.
Qed.

Lemma nextNamePrefix_cons (n : string) :
  exists c p, nextNamePrefix n = String c p.
Proof.
  unfold nextNamePrefix. destruct n as [|c n]; cbn [String.eqb].
  - now exists "."%char, "".
  - exists c, (n +:+ SUBSEPARATOR). reflexivity.
Qed.

(** Every name below a child named [n] continues [n] with further
    levels. *)
Lemma names_extend (v : value) :
  forall c n name,
    In name (names (events v (String c n))) ->
    exists r, name = String c n +:+ r /\ levelTail r.
Proof.
  induction v as
    [ | | b | str | num | e | e | items IH | isEntries items IH | str keys | id ]
    using value_ind'; intros c n name Hin;
    try (destruct Hin as [<-|[]]; exists "";
         rewrite append_empty_r; split; [reflexivity | now left]);
    try (destruct Hin).
  - rewrite events_array in Hin.
    change (nextNamePrefix (String c n)) with (String c n +:+ SUBSEPARATOR)
      in Hin.
    revert Hin. generalize 0.
    induction IH as [|x xs Hx _ IHxs]; intros i Hin; [destruct Hin|].
    cbn [eventsOfItems] in Hin. rewrite names_app in Hin.
    apply in_app_or in Hin as [Hin|Hin]; [|now apply (IHxs (S i))].
    rewrite append_assoc, append_cons in Hin.
    apply Hx in Hin as (r & -> & Hr).
    exists (SUBSEPARATOR +:+ getComponentKey x i +:+ r).
    split; [|right; eexists; reflexivity].
    rewrite <- append_cons, !append_assoc. reflexivity.
  - rewrite events_iterable in Hin. cbn [names] in Hin.
    change (nextNamePrefix (String c n)) with (String c n +:+ SUBSEPARATOR)
      in Hin.
    revert Hin. generalize 0.
    induction IH as [|x xs Hx _ IHxs]; intros i Hin; [destruct Hin|].
    cbn [eventsOfItems] in Hin. rewrite names_app in Hin.
    apply in_app_or in Hin as [Hin|Hin]; [|now apply (IHxs (S i))].
    rewrite append_assoc, append_cons in Hin.
    apply Hx in Hin as (r & -> & Hr).
    exists (SUBSEPARATOR +:+ getComponentKey x i +:+ r).
    split; [|right; eexists; reflexivity].
    rewrite <- append_cons, !append_assoc. reflexivity.
Qed.

Lemma names_of_items (c : ascii) (p : string) (items : list value) :
  forall i name,
    In name (names (eventsOfItems (String c p) items i)) ->
    exists seg r,
      In seg (segments items i)
      /\ name = String c p +:+ seg +:+ r /\ levelTail r.
Proof.
  induction items as [|x xs IH]; intros i name Hin; [destruct Hin|].
  cbn [eventsOfItems segments] in *. rewrite names_app in Hin.
  apply in_app_or in Hin as [Hin|Hin].
  - rewrite append_cons in Hin.
    apply names_extend in Hin as (r & -> & Hr).
    exists (getComponentKey x i), r. split; [now left|].
    split; [|exact Hr]. rewrite <- append_cons. apply append_assoc.
  - apply IH in Hin as (seg & r & Hseg & -> & Hr).
    exists seg, r. split; [now right | now split].
Qed.

Lemma segments_In (items : list value) :
  forall i seg,
    In seg (segments items i) ->
    exists child j,
      In child items /\ i <= j /\ seg = getComponentKey child j.
Proof.
  induction items as [|x xs IH]; intros i seg Hin; [destruct Hin|].
  cbn [segments] in Hin. destruct Hin as [<-|Hin].
  - exists x, i. split; [now left | split; [lia | reflexivity]].
  - apply IH in Hin as (child & j & Hchild & Hj & ->).
    exists child, j. split; [now right | split; [lia | reflexivity]].
Qed.

Lemma segments_noColon (items : list value) (i : nat) (seg : string) :
  In seg (segments items i) -> noColon seg.
Proof.
  intros Hin. apply segments_In in Hin as (child & j & _ & _ & ->).
  apply getComponentKey_noColon.
Qed.

Lemma keysOf_In (items : list value) (child : value) (k : string) :
  In child items -> explicitKey child = Some k -> In k (keysOf items).
Proof.
  intros Hin Hk. unfold keysOf. apply in_flat_map.
  exists child. split; [exact Hin|]. rewrite Hk. now left.
Qed.

Lemma segments_NoDup (items : list value) :
  NoDup (keysOf items) -> forall i, NoDup (segments items i).
Proof.
  induction items as [|x xs IH]; intros Hkeys i; [constructor|].
  cbn [segments]. apply NoDup_cons.
  assert (Hxs : NoDup (keysOf xs)).
  { unfold keysOf in *. cbn [flat_map] in Hkeys.
    now apply NoDup_app in Hkeys as (_ & _ & Hxs). }
  split; [|now apply IH].
  rewrite list_elem_of_In. intros Hin.
  apply segments_In in Hin as (child & j & Hchild & Hj & Heq).
  apply getComponentKey_same in Heq.
  destruct (explicitKey x) as [k|] eqn:Hx,
           (explicitKey child) as [k'|] eqn:Hc; try contradiction.
  - subst k'. unfold keysOf in Hkeys. cbn [flat_map] in Hkeys.
    rewrite Hx in Hkeys.
    apply NoDup_app in Hkeys as (_ & Hdisj & _).
    apply (Hdisj k); [now left|].
    rewrite list_elem_of_In. now apply (keysOf_In xs child).
  - lia.
Qed.

Lemma names_of_items_NoDup (c : ascii) (p : string) (items : list value) :
  Forall (fun v => forall n, uniqueKeys v -> NoDup (names (events v n)))
    items ->
  Forall uniqueKeys items ->
  forall i,
    NoDup (segments items i) ->
    NoDup (names (eventsOfItems (String c p) items i)).
Proof.
  induction 1 as [|x xs Hx _ IH]; intros Hall i Hseg; [constructor|].
  apply Forall_cons in Hall as [Hux Huxs].
  cbn [segments] in Hseg. apply NoDup_cons in Hseg as [Hnotin Hseg].
  cbn [eventsOfItems]. rewrite names_app. apply NoDup_app.
  split; [now apply Hx|]. split; [|now apply IH].
  intros name. rewrite !list_elem_of_In. intros Hin1 Hin2.
  rewrite append_cons in Hin1.
  apply names_extend in Hin1 as (r1 & -> & Hr1).
  apply names_of_items in Hin2 as (seg & r2 & Hin & Heq & Hr2).
  apply Hnotin. rewrite list_elem_of_In.
  rewrite <- append_cons, append_assoc in Heq.
  apply append_inj_l in Heq.
  apply segment_split in Heq;
    [now rewrite Heq | apply getComponentKey_noColon
     | now apply (segments_noColon xs (S i)) | exact Hr1 | exact Hr2].
Qed.

Lemma uniqueKeys_items (items : list value) :
  (fix all (items : list value) : Prop :=
     match items with
     | [] => True
     | x :: rest => uniqueKeys x /\ all rest
     end) items ->
  Forall uniqueKeys items.
Proof.
  induction items as [|x xs IH]; [constructor|].
  intros [Hx Hxs]. constructor; [exact Hx | now apply IH].
Qed.

Lemma names_NoDup (v : value) :
  forall n, uniqueKeys v -> NoDup (names (events v n)).
Proof.
  induction v as
    [ | | b | str | num | e | e | items IH | isEntries items IH | str keys | id ]
    using value_ind'; intros n Huniq;
    try apply NoDup_singleton; try constructor.
  - rewrite events_array.
    destruct (nextNamePrefix_cons n) as (c & p & ->).
    destruct Huniq as [Hkeys Hall].
    apply names_of_items_NoDup;
      [exact IH | now apply uniqueKeys_items | now apply segments_NoDup].
  - rewrite events_iterable. cbn [names].
    destruct (nextNamePrefix_cons n) as (c & p & ->).
    destruct Huniq as [Hkeys Hall].
    apply names_of_items_NoDup;
      [exact IH | now apply uniqueKeys_items | now apply segments_NoDup].
Qed.

Lemma visited_names_In (name : string) (evs : list event) :
  In name (map snd (visited evs)) -> In name (names evs).
Proof.
  induction evs as [|[child k|isEntries|str keys] evs IH]; cbn; intros H;
    [exact H | destruct H as [H|H]; [now left | right; now apply IH]
     | now apply IH | destruct H].
Qed.

Lemma visited_names_NoDup (evs : list event) :
  NoDup (names evs) -> NoDup (map snd (visited evs)).
Proof.
  induction evs as [|[child k|isEntries|str keys] evs IH]; cbn; intros H.
  - constructor.
  - apply NoDup_cons in H as [Hnotin H]. apply NoDup_cons.
    split; [|now apply IH].
    rewrite list_elem_of_In in *. intros Hin. apply Hnotin.
    now apply visited_names_In.
  - now apply IH.
  - constructor.
Qed.

Lemma traversed_names_NoDup (T : value) :
  uniqueKeys T -> NoDup (map snd (visited (traversed T))).
Proof.
  intros Huniq. unfold traversed.
  destruct (isNullish T); [constructor|].
  now apply visited_names_NoDup, names_NoDup.
Qed.

Lemma runEvents_record (evs : list event) :
  forall n log s,
    exists s',
      runEvents record evs (n, log) s
      = (traversalOutcome None evs
           (n + length (visited evs), log ++ visited evs), s').
Proof.
  induction evs as [|[child k|isEntries|str keys] evs IH]; intros n log s.
  - exists s. cbn. now rewrite Nat.add_0_r, app_nil_r.
  - destruct (IH (S n) (log ++ [(child, k)]) s) as (s' & Hrun).
    exists s'. cbn [runEvents visited length fst snd]. unfold bind, record, ret.
    cbn [fst snd]. unfold record, ret in Hrun. rewrite Hrun.
    unfold traversalOutcome. cbn [firstInvalid].
    now rewrite Nat.add_succ_r, <- app_assoc.
  - destruct (warnAboutMaps_returns isEntries s) as (s1 & Hw & _).
    destruct (IH n log s1) as (s' & Hrun).
    exists s'. cbn [runEvents visited]. unfold bind.
    rewrite Hw, Hrun. reflexivity.
  - exists s. rewrite runEvents_invalid. reflexivity.
Qed.

Lemma traverseAllChildren_record (T : value) (s s' : State) (n : nat)
  (log : list (value * string)) :
  traverseAllChildren record T [] s = (Return (n, log), s') ->
  firstInvalid (traversed T) = None
  /\ n = length log /\ log = visited (traversed T).
Proof.
  rewrite traverseAllChildren_events. fold (traversed T).
  destruct (runEvents_record (traversed T) 0 [] s) as (s1 & ->).
  unfold traversalOutcome.
  destruct (firstInvalid (traversed T)); [discriminate|].
  intros [= <- <- _]. now repeat split.
Qed.

Lemma names_start_with_separator (T : value) (name : string) :
  In name (names (events T "")) -> exists r, name = SEPARATOR +:+ r.
Proof.
  destruct T as
    [ | | b | str | num | e | e | items | isEntries items | str keys | id ];
    try (intros [<-|[]]; eexists; reflexivity); try (intros []).
  - rewrite events_array. intros Hin.
    apply (names_of_items "." "") in Hin as (seg & r & _ & -> & _).
    now exists (seg +:+ r).
  - rewrite events_iterable. cbn [names]. intros Hin.
    apply (names_of_items "." "") in Hin as (seg & r & _ & -> & _).
    now exists (seg +:+ r).
Qed.

(** X15.  Whatever the callback, [traverseAllChildren] hands it only
    leaves ([null], a string, a number, an element or a portal, never
    [undefined], a boolean or an array), each under a name that starts
    with the separator [.], and the count it returns is the number of
    calls it made. *)
Theorem traverseAllChildren_calls (T : value) (s s' : State) (n : nat)
  (log : list (value * string)) :
  traverseAllChildren record T [] s = (Return (n, log), s') ->
  n = length log
  /\ Forall (fun call => isLeaf (fst call) = true) log
  /\ Forall (fun call => exists r, snd call = SEPARATOR +:+ r) log.
Proof.
  intros Hrun.
  apply traverseAllChildren_record in Hrun as (_ & Hn & ->).
  split; [exact Hn|]. split.
  - apply visited_leaf, traversed_leaf.
  - apply Forall_forall. intros [child name] Hin. cbn [snd].
    apply list_elem_of_In in Hin.
    apply (names_start_with_separator T).
    unfold traversed in Hin. destruct (isNullish T); [destruct Hin|].
    apply visited_names_In.
    apply in_map_iff. exists (child, name). now split.
Qed.

(** X16.  When no two items of one array or iterable of the tree
    carry the same explicit key, the names [traverseAllChildren] hands
    to the callback are pairwise distinct. *)
Theorem traverseAllChildren_names_distinct (T : value) (s s' : State)
  (n : nat) (log : list (value * string)) :
  uniqueKeys T ->
  traverseAllChildren record T [] s = (Return (n, log), s') ->
  NoDup (map snd log).
Proof.
  intros Huniq Hrun.
  apply traverseAllChildren_record in Hrun as (_ & _ & ->).
  now apply traversed_names_NoDup.
Qed.

Lemma elementKeys_emitLeaves_In (k : string) (vs : list (value * string)) :
  In k (elementKeys (emitLeaves (Some "") vs)) -> In k (map snd vs).
Proof.
  unfold elementKeys, emitLeaves.
  induction vs as [|[child name] vs IH]; [trivial|].
  cbn [flat_map map fst snd]. rewrite flat_map_app. intros Hin.
  apply in_app_or in Hin as [Hin|Hin]; [|right; now apply IH].
  left. destruct child; try (cbn in Hin; contradiction).
  rewrite emitOne_element_identity in Hin. cbn in Hin.
  destruct Hin as [<-|[]]. reflexivity.
Qed.

Lemma elementKeys_emitLeaves_NoDup (vs : list (value * string)) :
  NoDup (map snd vs) -> NoDup (elementKeys (emitLeaves (Some "") vs)).
Proof.
  induction vs as [|[child name] vs IH]; [constructor|].
  cbn [map snd]. intros H. apply NoDup_cons in H as [Hnotin H].
  unfold elementKeys, emitLeaves in *. cbn [flat_map fst snd].
  rewrite flat_map_app. apply NoDup_app.
  split; [|split; [|now apply IH]].
  - destruct child; try (cbn; constructor; fail).
    rewrite emitOne_element_identity. cbn. apply NoDup_singleton.
  - intros k. rewrite !list_elem_of_In. intros Hin1 Hin2.
    apply Hnotin. rewrite list_elem_of_In.
    apply (elementKeys_emitLeaves_In k vs) in Hin2.
    destruct child; try (cbn in Hin1; contradiction).
    rewrite emitOne_element_identity in Hin1. cbn in Hin1.
    destruct Hin1 as [<-|[]]. exact Hin2.
Qed.

(** X17.  When no two items of one array or iterable of the tree
    carry the same explicit key, the elements [toArray] returns have
    pairwise distinct keys. *)
Theorem toArray_keys_distinct (fuel : nat) (T : value) (s s' : State)
  (items : list value) :
  uniqueKeys T ->
  toArray (S fuel) T s = (Return (VArray items), s') ->
  NoDup (elementKeys items).
Proof.
  intros Huniq Hrun.
  destruct (toArray_spec fuel T s) as (s1 & Hspec).
  rewrite Hspec in Hrun. unfold traversalOutcome in Hrun.
  destruct (firstInvalid (traversed T)); [discriminate|].
  injection Hrun as <- _.
  now apply elementKeys_emitLeaves_NoDup, traversed_names_NoDup.
Qed.

(** *** Work tags *)

(** X18.  The twenty-one work tags are pairwise distinct, and they
    are exactly the values of the type [WorkTag]: every tag is one of
    the literals 0 to 20 and every such literal is the value of a
    tag. *)
Theorem workTags_distinct :
  NoDup workTags
  /\ length workTags = 21
  /\ (forall n, isWorkTag n = true <-> In n workTags).
Proof.
  split; [|split].
  - apply (bool_decide_unpack _). vm_compute. exact I.
  - reflexivity.
  - intros n. unfold isWorkTag. split.
    + intros H. apply Nat.leb_le in H.
      do 21 (destruct n as [|n]; [cbn; tauto|]). lia.
    + intros H. cbn in H.
      repeat (destruct H as [<-|H]; [reflexivity|]). destruct H.
Qed.

(** *** What the traversal cannot tell apart *)

Lemma getComponentKey_canonical (c : value) (i : nat) :
  getComponentKey (canonical c) i = getComponentKey c i.
Proof. destruct c; reflexivity. Qed.

Lemma visited_app_cases (a b : list event) :
  visited (a ++ b)
  = match firstInvalid a with
    | Some _ => visited a
    | None => visited a ++ visited b
    end.
Proof.
  induction a as [|[child k|isEntries|str keys] a IH]; cbn;
    [reflexivity | | exact IH | reflexivity].
  rewrite IH. now destruct (firstInvalid a).
Qed.

Lemma events_canonical (v : value) :
  forall n,
    visited (events (canonical v) n) = visited (events v n)
    /\ firstInvalid (events (canonical v) n) = firstInvalid (events v n).
Proof.
  induction v as
    [ | | b | str | num | e | e | items IH | isEntries items IH | str keys | id ]
    using value_ind'; intros n; try (split; reflexivity).
  - cbn [canonical]. rewrite !events_array.
    generalize 0, (nextNamePrefix n).
    induction IH as [|x xs Hx _ IHxs]; intros i prefix; [now split|].
    cbn [map eventsOfItems]. rewrite getComponentKey_canonical.
    destruct (Hx (prefix +:+ getComponentKey x i)) as [Hv Hf].
    destruct (IHxs (S i) prefix) as [Hvs Hfs].
    rewrite !visited_app_cases, !firstInvalid_app, Hv, Hf, Hvs, Hfs.
    now split.
  - cbn [canonical]. rewrite events_array, events_iterable.
    cbn [visited firstInvalid].
    generalize 0, (nextNamePrefix n).
    induction IH as [|x xs Hx _ IHxs]; intros i prefix; [now split|].
    cbn [map eventsOfItems]. rewrite getComponentKey_canonical.
    destruct (Hx (prefix +:+ getComponentKey x i)) as [Hv Hf].
    destruct (IHxs (S i) prefix) as [Hvs Hfs].
    rewrite !visited_app_cases, !firstInvalid_app, Hv, Hf, Hvs, Hfs.
    now split.
Qed.

Lemma traversed_canonical (T : value) :
  isBoolean T = false ->
  visited (traversed (canonical T)) = visited (traversed T)
  /\ firstInvalid (traversed (canonical T)) = firstInvalid (traversed T).
Proof.
  intros Hb. unfold traversed.
  destruct T; try discriminate; try (split; reflexivity);
    cbn [isNullish]; apply events_canonical.
Qed.

(** X19.  The operations cannot tell an iterable from the array of
    what it yields, nor [undefined] or a boolean inside the tree from
    [null]: on a tree that is not itself a boolean, [countChildren] and
    [toArray] give the same outcome as on the tree with these replaced,
    and so does [mapChildren] with any visitor when the tree is not
    [null] or [undefined] either. *)
Theorem operations_on_canonical (fuel : nat) (T : value) (f : mapfn)
  (this : value) (s : State) :
  isBoolean T = false ->
  fst (countChildren (canonical T) s) = fst (countChildren T s)
  /\ fst (toArray (S fuel) (canonical T) s) = fst (toArray (S fuel) T s)
  /\ (isNullish T = false ->
      fst (mapChildren (S (S fuel)) (canonical T) f this s)
      = fst (mapChildren (S (S fuel)) T f this s)).
Proof.
  intros Hb. destruct (traversed_canonical T Hb) as [Hv Hf].
  split; [|split].
  - destruct (countChildren_spec (canonical T) s) as (s1 & ->).
    destruct (countChildren_spec T s) as (s2 & ->).
    cbn [fst]. unfold traversalOutcome. now rewrite Hv, Hf.
  - destruct (toArray_spec fuel (canonical T) s) as (s1 & ->).
    destruct (toArray_spec fuel T s) as (s2 & ->).
    cbn [fst]. unfold traversalOutcome. now rewrite Hv, Hf.
  - intros Hnn.
    assert (Hnn' : isNullish (canonical T) = false)
      by (destruct T; try discriminate; reflexivity).
    destruct (mapChildren_spec fuel (canonical T) f this s Hnn') as (s1 & ->).
    destruct (mapChildren_spec fuel T f this s Hnn) as (s2 & ->).
    cbn [fst]. unfold traversalOutcome. now rewrite Hv, Hf.
Qed.

(** X20.  A boolean given as the whole tree is traversed, unlike
    [null] and [undefined]: the callback is called once, with [null]
    under the name [.0]; [countChildren] returns 1 where it returns 0
    for [null] and [undefined], and [toArray] returns the empty array
    for all three. *)
Theorem boolean_root_is_visited (b : bool) (fuel : nat) (s : State) :
  fst (traverseAllChildren record (VBoolean b) [] s)
  = Return (1, [(VNull, ".0")])
  /\ fst (countChildren (VBoolean b) s) = Return 1
  /\ fst (countChildren VNull s) = Return 0
  /\ fst (countChildren VUndefined s) = Return 0
  /\ fst (toArray (S fuel) (VBoolean b) s) = Return (VArray [])
  /\ fst (toArray (S fuel) VNull s) = Return (VArray []).
Proof.
  repeat split.
  - destruct (toArray_spec fuel (VBoolean b) s) as (s' & ->). reflexivity.
  - destruct (toArray_spec fuel VNull s) as (s' & ->). reflexivity.
Qed.

End ReactChildren.

(** ** Concrete runs *)

Example toString36_samples :
  map toString36 [0; 9; 10; 35; 36; 71; 1295; 1296]
  = ["0"; "9"; "a"; "z"; "10"; "1z"; "zz"; "100"].
Proof. reflexivity. Qed.

Example escapeUserProvidedKey_samples :
  map escapeUserProvidedKey ["a/b"; "a//b/"; ".0"; "/"]
  = ["a//b"; "a///b//"; ".0"; "//"].
Proof. reflexivity. Qed.

Example toArray_sample :
  run (toArray true "" enoughFuel
         (VArray [elt None 1; VNull; VArray [elt (Some "a:b") 2; VString "s"];
                  VIterable false [VNumber 7; elt (Some "k") 3]]))
  = Return (VArray [elt (Some ".0") 1; elt (Some ".2:$a=2b") 2; VString "s";
                    VNumber 7; elt (Some ".3:$k") 3]).
Proof. reflexivity. Qed.

Example mapChildren_fanout :
  run (mapChildren false "" enoughFuel (VArray [elt None 1; elt (Some "b") 2])
         (fun _ x _ => VArray [x; x]) VUndefined)
  = Return (VArray [elt (Some ".0/.0") 1; elt (Some ".0/.1") 1;
                    elt (Some ".$b/.$b") 2; elt (Some ".$b/.$b") 2]).
Proof. reflexivity. Qed.

Example mapChildren_keeps_mapped_key :
  run (mapChildren false "" enoughFuel (VArray [elt None 1; elt (Some "b") 2])
         (fun _ _ _ => elt (Some "m/n") 9) VUndefined)
  = Return (VArray [elt (Some "m//n/.0") 9; elt (Some "m//n/.$b") 9]).
Proof. reflexivity. Qed.

Example mapChildren_needs_two_levels :
  run (mapChildren false "" 1 (elt None 1) (fun _ x _ => VArray [x])
         VUndefined) = OutOfFuel.
Proof. reflexivity. Qed.

Example pool_after_error :
  let s := snd (toArray false "" enoughFuel
                  (VArray [elt None 1; VObject (Some "[object Object]") ["x"]])
                  (snd (toArray false "" enoughFuel (elt None 1)
                          initialState))) in
  traverseContextPool s = []
  /\ arrays s = [[elt (Some ".0") 1]; [elt (Some ".0") 1]].
Proof. split; reflexivity. Qed.

(** A tree with a [null] leaf: the count is 1, the array is empty. *)
Lemma countChildren_toArray_length_counterexample :
  ~ (forall T n items,
        run (countChildren false "" T) = Return n ->
        run (toArray false "" enoughFuel T) = Return (VArray items) ->
        n = length items).
Proof.
  intros H.
  specialize (H (VArray [VNull]) 1 [] eq_refl eq_refl).
  discriminate H.
Qed.

(** A lone element: the identity keys its clone [.0], the wrapping
    visitor keys it [.0/.0]. *)
Lemma mapChildren_wrap_counterexample :
  ~ (forall T,
        run (mapChildren false "" enoughFuel T (fun _ x _ => VArray [x])
               VUndefined)
        = run (mapChildren false "" enoughFuel T (fun _ x _ => x)
                 VUndefined)).
Proof.
  intros H. specialize (H (elt None 1)). discriminate H.
Qed.

Lemma invalid_child_error_example :
  let T := VArray [elt None 1; VObject (Some "[object Object]") ["x"]] in
  let D := VArray [VObject (Some "Thu Jan 01 1970") []] in
  firstObject T = Some (Some "[object Object]", ["x"])
  /\ run (countChildren false "" T)
     = Throw (InvariantViolation
                ("Objects are not valid as a React child " +:+
                 "(found: object with keys {x})."))
  /\ run (mapChildren false "" enoughFuel T (fun _ _ _ => VNull) VUndefined)
     = Throw (InvariantViolation
                ("Objects are not valid as a React child " +:+
                 "(found: object with keys {x})."))
  /\ includes "x" (invalidChildMessage false "" "[object Object]" ["x"])
  /\ firstObject D = Some (Some "Thu Jan 01 1970", [])
  /\ "Thu Jan 01 1970" <> "[object Object]"
  /\ includes "Thu Jan 01 1970"
       (invalidChildMessage false "" "Thu Jan 01 1970" []).
Proof.
  pose proof (invalid_child_error false ""
                (VArray [elt None 1; VObject (Some "[object Object]") ["x"]])
                "[object Object]" ["x"] eq_refl 0 (fun _ _ _ => VNull)
                VUndefined initialState)
    as (Hcount & _ & _ & _ & Hmap & Hkeys & _).
  pose proof (invalid_child_error false ""
                (VArray [VObject (Some "Thu Jan 01 1970") []])
                "Thu Jan 01 1970" [] eq_refl 0 (fun _ _ _ => VNull)
                VUndefined initialState)
    as (_ & _ & _ & _ & _ & _ & Hstr).
  split; [reflexivity|].
  split; [exact Hcount|].
  split; [exact (Hmap (fun _ _ => eq_refl))|].
  split; [apply (Hkeys eq_refl); left; reflexivity|].
  split; [reflexivity|].
  split; [discriminate|].
  apply Hstr. discriminate.
Qed.

Lemma invalid_child_without_string_conversion_witness :
  let T := VArray [elt None 1; VObject None ["x"]] in
  firstObject T = Some (None, ["x"])
  /\ run (countChildren false "" T) = Throw conversionError
  /\ run (forEachChildren false "" T (fun _ _ _ => VNull) VUndefined)
     = Throw conversionError
  /\ run (toArray false "" enoughFuel T) = Throw conversionError
  /\ run (mapChildren false "" enoughFuel T (fun _ _ _ => VNull) VUndefined)
     = Throw conversionError
  /\ conversionError
     <> InvariantViolation
          (invalidChildMessage false "" "[object Object]" ["x"]).
Proof.
  pose proof (invalid_child_without_string_conversion false ""
                (VArray [elt None 1; VObject None ["x"]]) ["x"] eq_refl)
    as H.
  split; [reflexivity|].
  split; [exact (proj1 (H 0 (fun _ _ _ => VNull) VUndefined initialState))|].
  split;
    [exact (proj1 (proj2 (H 0 (fun _ _ _ => VNull) VUndefined initialState)))|].
  split;
    [exact (proj1 (proj2 (proj2
              (H 1 (fun _ _ _ => VNull) VUndefined initialState))))|].
  split;
    [exact (proj1 (proj2 (proj2 (proj2
              (H 0 (fun _ _ _ => VNull) VUndefined initialState))))
              (fun _ _ => eq_refl))|].
  exact (proj2 (proj2 (proj2 (proj2 (proj2
           (H 0 (fun _ _ _ => VNull) VUndefined initialState)))))
           "[object Object]").
Defined.

Lemma toArray_lone_leaf_same_key_witness :
  leafNode (elt (Some "k") 1) = true
  /\ run (toArray false "" enoughFuel (elt (Some "k") 1))
     = run (toArray false "" enoughFuel (VArray [elt (Some "k") 1]))
  /\ run (toArray false "" enoughFuel (elt (Some "k") 1))
     = Return (VArray [elt (Some ".$k") 1]).
Proof.
  pose proof (toArray_lone_leaf_same_key false "" (elt (Some "k") 1) eq_refl)
    as (Hsame & _ & _ & Hret).
  split; [reflexivity|].
  split.
  - unfold run. now rewrite (Hsame enoughFuel initialState).
  - exact (Hret 1 initialState).
Defined.

Lemma pool_stays_bounded_and_cleared_witness :
  pool_ok initialState
  /\ pool_ok (snd (toArray false "" enoughFuel
                     (VArray [elt None 1; VObject (Some "[object Object]") ["x"]])
                     initialState))
  /\ pool_ok (snd (mapChildren false "" enoughFuel (VArray [elt None 1; VNull])
                     (fun _ x _ => VArray [x; x]) VUndefined initialState)).
Proof.
  assert (Hinit : pool_ok initialState).
  { split; [cbn; unfold POOL_SIZE; lia | constructor]. }
  split; [exact Hinit|].
  split.
  - apply (pool_stays_bounded_and_cleared false "" initialState
             Hinit enoughFuel
             (VArray [elt None 1; VObject (Some "[object Object]") ["x"]])
             (fun _ x _ => x) VUndefined).
  - apply (pool_stays_bounded_and_cleared false "" initialState
             Hinit enoughFuel (VArray [elt None 1; VNull])
             (fun _ x _ => VArray [x; x]) VUndefined).
Defined.

(** ** Concrete runs of the further properties *)

Lemma sampleTree_uniqueKeys : uniqueKeys sampleTree.
Proof.
  cbn. repeat split; try (apply (bool_decide_unpack _); vm_compute; exact I).
Defined.

Lemma escape_injective_witness :
  escape "a:b" = escape "a:b" /\ "a:b" = "a:b".
Proof.
  split; [reflexivity|]. exact (escape_injective "a:b" "a:b" eq_refl).
Defined.

Lemma countChildren_countLeaves_witness :
  firstObject sampleTree = None
  /\ run (countChildren false "" sampleTree) = Return 7.
Proof.
  split; [reflexivity|].
  exact (countChildren_countLeaves false "" sampleTree initialState eq_refl).
Defined.

Lemma toArray_solidLeaves_witness :
  firstObject sampleTree = None
  /\ eraseKeys (run (toArray false "" enoughFuel sampleTree))
     = Return (VArray [elt None 1; VString "a"; elt None 2; elt None 3;
                       VNumber 7]).
Proof.
  split; [reflexivity|].
  exact (toArray_solidLeaves false "" 1 sampleTree initialState eq_refl).
Defined.


Lemma mapChildren_length_countChildren_witness :
  isNullish sampleTree = false
  /\ (forall child index : nat,
        isNullish (VString "x") = false /\ isArray (VString "x") = false)
  /\ match run (countChildren false "" sampleTree),
           run (mapChildren false "" enoughFuel sampleTree
                  (fun _ _ _ => VString "x") VUndefined) with
     | Return n, Return (VArray items) => n = length items
     | Throw e, Throw e' => e = e'
     | _, _ => False
     end.
Proof.
  split; [reflexivity|]. split; [now split|].
  exact (mapChildren_length_countChildren false "" 0 sampleTree
           (fun _ _ _ => VString "x") VUndefined initialState eq_refl
           (fun _ _ => conj eq_refl eq_refl)).
Defined.


Lemma toArray_then_count_and_toArray_witness :
  match toArray false "" enoughFuel sampleTree initialState with
  | (Return (VArray items), _) =>
      run (countChildren false "" (VArray items)) = Return (length items)
  | _ => False
  end.
Proof.
  destruct (toArray false "" enoughFuel sampleTree initialState)
    as [[v| |] s'] eqn:E; try (vm_compute in E; discriminate E).
  destruct v; try (vm_compute in E; discriminate E).
  exact (proj1 (toArray_then_count_and_toArray false "" 1 sampleTree
                  initialState s' items E) initialState).
Defined.


Lemma traverseAllChildren_calls_witness :
  match traverseAllChildren false "" record sampleTree [] initialState with
  | (Return (n, log), _) =>
      n = length log
      /\ Forall (fun call => isLeaf (fst call) = true) log
      /\ Forall (fun call => exists r, snd call = SEPARATOR +:+ r) log
  | _ => False
  end.
Proof.
  destruct (traverseAllChildren false "" record sampleTree [] initialState)
    as [[[n log]| |] s'] eqn:E; try (vm_compute in E; discriminate E).
  exact (traverseAllChildren_calls false "" sampleTree initialState s' n log
           E).
Defined.

Lemma traverseAllChildren_names_distinct_witness :
  uniqueKeys sampleTree
  /\ match traverseAllChildren false "" record sampleTree [] initialState
           with
     | (Return (n, log), _) => NoDup (map snd log)
     | _ => False
     end.
Proof.
  split; [exact sampleTree_uniqueKeys|].
  destruct (traverseAllChildren false "" record sampleTree [] initialState)
    as [[[n log]| |] s'] eqn:E; try (vm_compute in E; discriminate E).
  exact (traverseAllChildren_names_distinct false "" sampleTree initialState
           s' n log sampleTree_uniqueKeys E).
Defined.

Lemma toArray_keys_distinct_witness :
  uniqueKeys sampleTree
  /\ match toArray false "" enoughFuel sampleTree initialState with
     | (Return (VArray items), _) => NoDup (elementKeys items)
     | _ => False
     end.
Proof.
  split; [exact sampleTree_uniqueKeys|].
  destruct (toArray false "" enoughFuel sampleTree initialState)
    as [[v| |] s'] eqn:E; try (vm_compute in E; discriminate E).
  destruct v; try (vm_compute in E; discriminate E).
  exact (toArray_keys_distinct false "" 1 sampleTree initialState s' items
           sampleTree_uniqueKeys E).
Defined.

Lemma operations_on_canonical_witness :
  isBoolean sampleTree = false
  /\ canonical sampleTree
     = VArray [elt None 1; VNull;
               VArray [VString "a"; VNull; elt (Some "k") 2];
               VArray [elt (Some "k") 3; VNumber 7];
               VFunction 0]
  /\ run (toArray false "" enoughFuel (canonical sampleTree))
     = run (toArray false "" enoughFuel sampleTree)
  /\ isNullish sampleTree = false
  /\ run (mapChildren false "" enoughFuel (canonical sampleTree)
            twiceVisitor VUndefined)
     = run (mapChildren false "" enoughFuel sampleTree twiceVisitor
              VUndefined).
Proof.
  pose proof (operations_on_canonical false "" 0 sampleTree twiceVisitor
                VUndefined initialState eq_refl) as (_ & Harr & Hmap).
  split; [reflexivity|]. split; [reflexivity|]. split; [exact Harr|].
  split; [reflexivity | exact (Hmap eq_refl)].
Defined.

Lemma escapeUserProvidedKey_round_trip_witness :
  escapeUserProvidedKey "a//b/" = escapeUserProvidedKey "a//b/"
  /\ "a//b/" = "a//b/"
  /\ escapeUserProvidedKey "a//b/" = "a///b//"
  /\ unescapeUserProvidedKey "a///b//" = "a//b/".
Proof.
  split; [reflexivity|].
  split; [exact (proj2 escapeUserProvidedKey_round_trip "a//b/" "a//b/"
                   eq_refl)|].
  split; [reflexivity|].
  exact (proj1 escapeUserProvidedKey_round_trip "a//b/").
Defined.

Lemma operations_keep_earlier_arrays_witness :
  let s := snd (toArray false "" enoughFuel sampleTree initialState) in
  exists out,
    arrays (snd (toArray false "" enoughFuel (VArray [VString "z"]) s))
    = arrays s ++ [out]
    /\ (fst (toArray false "" enoughFuel (VArray [VString "z"]) s)
        = Return (VArray [VString "z"]) -> [VString "z"] = out).
Proof.
  intros s.
  destruct (operations_keep_earlier_arrays false "" enoughFuel
              (VArray [VString "z"]) (fun _ c _ => c) VUndefined s)
    as ((out & Harr & Hout) & _).
  exists out. split; [exact Harr | apply Hout].
Defined.
